(** * vitarit: consistent-hash ring, peer registry, discovery and dispatcher

    A shallow embedding of the Go package [vitarit] (hashRing.go,
    distributedCache.go, cacheNode.go, the peer-discovery file and
    vitarit.go) together with the properties of its membership and
    routing engine.

    Conventions.
    - Go [string] is [string] (a sequence of bytes); [[]byte] is
      [list Byte.byte].
    - [uint32] hashes and Go [int] values are [Z]; slice indices and
      lengths are [nat].
    - A Go map is a [gmap]; a slice is a [list].
    - [*cacheNode] is [option cacheNode] ([nil] is [None]); the ring never
      writes through the pointers it stores, so the pointee stands for
      the pointer.
    - A run-time panic (index out of range) is the [Panics] outcome.
    - [time.Time] is the reading of the monotonic clock in nanoseconds. *)

From stdpp Require Import gmap strings list fin_maps sorting.
From Stdlib Require Import ZArith Lia.

Local Open Scope Z_scope.

(** ** Outcomes of Go calls that may panic *)

Inductive outcome (A : Type) : Type :=
| Returns (a : A)
| Panics.
Arguments Returns {A} a.
Arguments Panics {A}.

Definition obind {A B} (m : outcome A) (k : A → outcome B) : outcome B :=
  match m with
  | Returns a => k a
  | Panics => Panics
  end.

Notation "x ←! m ; k" := (obind m (λ x, k))
  (at level 20, m at level 100, k at level 200, right associativity,
   only parsing).

(** [s[i]] on a slice: panics when [i] is out of range. *)
Definition index {A} (s : list A) (i : nat) : outcome A :=
  match s !! i with
  | Some x => Returns x
  | None => Panics
  end.

(** ** hash/crc32 (IEEE polynomial), table driven as in the Go library *)

Module crc32.

Definition IEEE : Z := 0xedb88320.

(** One step of the table generator: [crc = (crc >> 1) ^ poly] when the
    low bit is set, [crc >>= 1] otherwise. *)
Definition shift_step (crc : Z) : Z :=
  if Z.testbit crc 0 then Z.lxor (Z.shiftr crc 1) IEEE else Z.shiftr crc 1.

(** [simpleMakeTable]: entry [i] of the 256-entry table. *)
Definition table (i : Z) : Z := Nat.iter 8 shift_step i.

(** [simpleUpdate], loop body: [crc = tab[byte(crc)^v] ^ (crc >> 8)]. *)
Definition update_byte (crc : Z) (v : Byte.byte) : Z :=
  Z.lxor (table (Z.lxor (Z.land crc 0xff) (Z.of_N (Byte.to_N v))))
         (Z.shiftr crc 8).

(** [^crc] on a [uint32]. *)
Definition not32 (crc : Z) : Z := Z.lxor crc 0xffffffff.

Definition Update (crc : Z) (p : list Byte.byte) : Z :=
  not32 (foldl update_byte (not32 crc) p).

Definition ChecksumIEEE (p : list Byte.byte) : Z := Update 0 p.

End crc32.

(** [crc32.ChecksumIEEE([]byte(s))] *)
Definition hashOf (s : string) : Z :=
  crc32.ChecksumIEEE (String.list_byte_of_string s).

(** ** sort.Search and sort.Slice *)

Module sort.

(** [sort.Search(n, f)]:
    [i, j := 0, n; for i < j { h := int(uint(i+j) >> 1);
       if !f(h) { i = h + 1 } else { j = h } }; return i].
    Every iteration shrinks [j - i], so [n] iterations are enough
    ([search_loop_fuel] below); [f] may panic. *)
Fixpoint search_loop (fuel : nat) (f : nat → outcome bool) (i j : nat)
  : outcome nat :=
  match fuel with
  | O => Returns i
  | S fuel' =>
      if decide (i < j)%nat then
        let h := ((i + j) / 2)%nat in
        b ←! f h;
        if negb b then search_loop fuel' f (h + 1)%nat j
        else search_loop fuel' f i h
      else Returns i
  end.

Definition Search (n : nat) (f : nat → outcome bool) : outcome nat :=
  search_loop n f 0%nat n.

(** [sort.Slice(s, func(i, j) bool { return s[i] < s[j] })] on a
    [[]uint32]: the ascending rearrangement of [s]. *)
Definition Slice (s : list Z) : list Z := merge_sort Z.le s.

End sort.

(** ** cacheNode.go: node descriptors and the per-node store *)

Record nodeInfo : Type := {
  ID : string;
  IP : string;
  Port : string;
  GroupID : string
}.

Record cacheData : Type := {
  bytes : list Byte.byte;  (* payload *)
  copy : Z;                (* copy factor *)
  crc : Z                  (* CRC32 checksum of the payload *)
}.

Record cacheNode : Type := {
  info : nodeInfo;               (* the embedded nodeInfo *)
  data : gmap string cacheData   (* key-value pairs held by the node *)
}.

Definition newCacheNode (node : nodeInfo) : cacheNode :=
  {| info := node; data := ∅ |}.

(** ** hashRing.go *)

Record hashRing : Type := {
  nodes : list cacheNode;
  sortedHashes : list Z;
  nodeMap : gmap Z cacheNode
}.

Module ring.

Definition NewHashRing : hashRing :=
  {| nodes := []; sortedHashes := []; nodeMap := ∅ |}.

Definition addNode (node : nodeInfo) (r : hashRing) : hashRing :=
  let hash := hashOf (ID node) in
  match nodeMap r !! hash with
  | Some _ => r
  | None =>
      let cnode := newCacheNode node in
      {| nodes := nodes r ++ [cnode];
         sortedHashes := sort.Slice (sortedHashes r ++ [hash]);
         nodeMap := <[hash := cnode]> (nodeMap r) |}
  end.

(** [for i, h := range s { if h == hash { s = append(s[:i], s[i+1:]...);
    break } }] *)
Fixpoint dropHash (hash : Z) (s : list Z) : list Z :=
  match s with
  | [] => []
  | h :: s' => if decide (h = hash) then s' else h :: dropHash hash s'
  end.

(** The same loop over [ring.nodes], comparing [node.ID]. *)
Fixpoint dropID (nodeID : string) (s : list cacheNode) : list cacheNode :=
  match s with
  | [] => []
  | n :: s' =>
      if decide (ID (info n) = nodeID) then s' else n :: dropID nodeID s'
  end.

Definition removeNode (nodeID : string) (r : hashRing) : hashRing :=
  let hash := hashOf nodeID in
  match nodeMap r !! hash with
  | None => r
  | Some _ =>
      {| nodes := dropID nodeID (nodes r);
         sortedHashes := dropHash hash (sortedHashes r);
         nodeMap := delete hash (nodeMap r) |}
  end.

Definition getNodeByID (id : string) (r : hashRing) : option cacheNode :=
  nodeMap r !! hashOf id.

(** The closure handed to [sort.Search]:
    [func(i int) bool { return ring.sortedHashes[i] >= hash }]. *)
Definition atLeast (r : hashRing) (hash : Z) (i : nat) : outcome bool :=
  h ←! index (sortedHashes r) i;
  Returns (bool_decide (hash ≤ h)).

(** The primary index: the search result, normalised to 0 when it
    equals the length. *)
Definition primaryIdx (hash : Z) (r : hashRing) : outcome nat :=
  idx ←! sort.Search (length (sortedHashes r)) (atLeast r hash);
  Returns (if decide (idx = length (sortedHashes r)) then 0%nat else idx).

Definition getNode (key : string) (r : hashRing)
  : outcome (option cacheNode) :=
  let hash := hashOf key in
  idx ←! primaryIdx hash r;
  h ←! index (sortedHashes r) idx;
  Returns (nodeMap r !! h).

(** The loop [for redundancy > 0 { ... redundancy-- }] of [getNodes];
    the first argument counts the iterations still allowed by
    [redundancy]. *)
Fixpoint walk (redundancy : nat) (r : hashRing) (masterIdx idx : nat)
    (acc : list (option cacheNode)) : outcome (list (option cacheNode)) :=
  match redundancy with
  | O => Returns acc
  | S redundancy' =>
      let idx := (idx + 1)%nat in
      let idx := if decide (length (sortedHashes r) ≤ idx)%nat
                 then 0%nat else idx in
      if decide (idx = masterIdx) then Returns acc
      else
        h ←! index (sortedHashes r) idx;
        walk redundancy' r masterIdx idx (acc ++ [nodeMap r !! h])
  end.

Definition getNodes (key : string) (redundancy : Z) (r : hashRing)
  : outcome (list (option cacheNode)) :=
  let hash := hashOf key in
  idx ←! primaryIdx hash r;
  h ←! index (sortedHashes r) idx;
  walk (Z.to_nat redundancy) r idx idx ([] ++ [nodeMap r !! h]).

End ring.

(** ** distributedCache.go: the heartbeat registry over the ring *)

Record distributedCache : Type := {
  hring : hashRing;          (* the embedded *hashRing *)
  redundancy : Z;            (* how many extra copies are looked up *)
  nodeHB : gmap string Z     (* nodeID to the time of its last heartbeat *)
}.

Module cache.

Definition newDistributedCache (redundancy : Z) : distributedCache :=
  {| hring := ring.NewHashRing; redundancy := redundancy; nodeHB := ∅ |}.

(** [now] is the value [time.Now()] takes in the call. *)
Definition addNode (node : nodeInfo) (now : Z) (c : distributedCache)
  : distributedCache :=
  let r := match nodeHB c !! ID node with
           | None => ring.addNode node (hring c)
           | Some _ => hring c
           end in
  {| hring := r;
     redundancy := redundancy c;
     nodeHB := <[ID node := now]> (nodeHB c) |}.

Definition removeNode_unlocked (nodeID : string) (c : distributedCache)
  : distributedCache :=
  {| hring := ring.removeNode nodeID (hring c);
     redundancy := redundancy c;
     nodeHB := delete nodeID (nodeHB c) |}.

End cache.

(** ** Peer discovery: the receiver and the monitor *)

Module discovery.

(** [time.Second] and [monitorInterval], in nanoseconds. *)
Definition Second : Z := 1000000000.
Definition monitorInterval : Z := 10 * Second.

(** [now.Sub(lastSeen)] on monotonic readings: the difference as an
    [int64] duration, saturating at [minDuration] and [maxDuration]. *)
Definition maxDuration : Z := 2 ^ 63 - 1.
Definition minDuration : Z := - 2 ^ 63.
Definition Sub (t u : Z) : Z :=
  Z.max minDuration (Z.min maxDuration (t - u)).

(** What one [readFromUDP] followed by [json.Unmarshal] sees.
    [Object] is a JSON object: each of the four members is present
    with a string value or not stored; [mistyped] says that some member
    had a value of another type, in which case [Unmarshal] stores the
    others and still reports an error. *)
Inductive packet : Type :=
| ReadError
| BadJSON
| Object (node_id node_ip node_port group_id : option string)
         (mistyped : bool).

(** [json.Unmarshal(buf[:n], &node)]: members that are present
    overwrite the fields of [node], the others keep their value. The
    boolean is [err != nil]. *)
Definition Unmarshal (p : packet) (node : nodeInfo) : nodeInfo * bool :=
  match p with
  | ReadError | BadJSON => (node, true)
  | Object i a p g mistyped =>
      ({| ID := default (ID node) i;
          IP := default (IP node) a;
          Port := default (Port node) p;
          GroupID := default (GroupID node) g |}, mistyped)
  end.

Inductive verdict : Type :=
| Ignored
| Accepted (node : nodeInfo).   (* cache.addNode(node) was called *)

(** The receiver's variables: [node], declared once outside the loop,
    and the cache it feeds. *)
Record receiver : Type := {
  node : nodeInfo;
  rcache : distributedCache
}.

(** One iteration of the [default:] branch of [receiveHeartbeats];
    [now] is the clock reading used by [cache.addNode]. *)
Definition receiveOne (myNodeID myGroupID : string) (now : Z)
    (p : packet) (st : receiver) : receiver * verdict :=
  match p with
  | ReadError => (st, Ignored)
  | _ =>
      let '(node', err) := Unmarshal p (node st) in
      if err then ({| node := node'; rcache := rcache st |}, Ignored)
      else if decide (ID node' = myNodeID) then
        ({| node := node'; rcache := rcache st |}, Ignored)
      else if decide (GroupID node' = myGroupID) then
        ({| node := node'; rcache := rcache st |}, Ignored)
      else
        ({| node := node'; rcache := cache.addNode node' now (rcache st) |},
         Accepted node')
  end.

(** The receiver loop over the packets (with their arrival times) read
    until the context is cancelled. *)
Definition receiveHeartbeats (myNodeID myGroupID : string)
    (ps : list (Z * packet)) (c : distributedCache) : distributedCache :=
  rcache (foldl (λ st tp, (receiveOne myNodeID myGroupID tp.1 tp.2 st).1)
                {| node := {| ID := ""; IP := ""; Port := ""; GroupID := "" |};
                   rcache := c |} ps).

(** The body of [for nodeID, lastSeen := range cache.nodeHB] in
    [monitorHeartbeats]. An entry deleted before the iteration reaches
    it is not produced. *)
Definition sweepOne (myNodeID : string) (now : Z) (c : distributedCache)
    (nodeID : string) : distributedCache :=
  match nodeHB c !! nodeID with
  | None => c
  | Some lastSeen =>
      if decide (nodeID ≠ myNodeID) then
        if decide (monitorInterval < Sub now lastSeen)
        then cache.removeNode_unlocked nodeID c
        else c
      else c
  end.

(** One tick of the monitor. Go leaves the iteration order of a map
    unspecified: [order] is the order in which this tick visits the
    keys of [nodeHB]. *)
Definition sweep (myNodeID : string) (now : Z) (order : list string)
    (c : distributedCache) : distributedCache :=
  foldl (sweepOne myNodeID now) c order.

(** [order] is a possible iteration order over the keys of [m]. *)
Definition rangeOrder (m : gmap string Z) (order : list string) : Prop :=
  order ≡ₚ (map_to_list m).*1.

End discovery.

(** ** vitarit.go *)

(** [Start], up to the launch of the server and of discovery: a new
    cache to which the node adds itself. *)
Definition Start (node : nodeInfo) (redundancy : Z) (now : Z)
  : distributedCache :=
  cache.addNode node now (cache.newDistributedCache redundancy).

(** ** The request/response surface between dispatcher and nodes *)

Inductive method : Type :=
| MethodGet | MethodPost | MethodDelete | MethodOther.

(** A URL as [createURL] and [createURLForSet] assemble it:
    [https://IP:Port?id=ID&key=KEY] and [https://IP:Port?id=ID&copy=N].
    The parts interpolated by [Sprintf] are kept apart; a query parameter
    that the URL does not carry is [None]. *)
Record URL : Type := {
  host : string;
  port : string;
  q_id : string;
  q_key : option string;
  q_copy : option Z
}.

Record request : Type := {
  Method : method;
  Target : URL;
  (* the JSON object of a POST, [None] when there is no decodable body *)
  Body : option (gmap string (list Byte.byte))
}.

Record response : Type := {
  StatusCode : Z;
  (* what [io.ReadAll(resp.Body)] yields, [None] when reading fails *)
  Payload : option (list Byte.byte)
}.

Inductive error : Type := Err (msg : string).

Definition StatusOK : Z := 200.
Definition StatusBadRequest : Z := 400.
Definition StatusNotFound : Z := 404.
Definition StatusMethodNotAllowed : Z := 405.

(** *** cacheNode.go: the store and the handler of one node *)

Module node.

Definition get (key : string) (cn : cacheNode) : list Byte.byte * bool :=
  match data cn !! key with
  | Some value => (bytes value, true)
  | None => ([], false)
  end.

Definition set (key : string) (copy : Z) (value : list Byte.byte)
    (cn : cacheNode) : cacheNode :=
  {| info := info cn;
     data := <[key := {| bytes := value;
                         copy := copy;
                         crc := crc32.ChecksumIEEE value |}]> (data cn) |}.

Definition remove (key : string) (cn : cacheNode) : cacheNode :=
  {| info := info cn; data := delete key (data cn) |}.

(** [r.URL.Query().Get("key")]: the empty string when absent. *)
Definition queryKey (r : request) : string := default "" (q_key (Target r)).

(** [ServeHTTP]. A handler that never calls [WriteHeader] answers 200. *)
Definition ServeHTTP (r : request) (cn : cacheNode) : cacheNode * response :=
  match Method r with
  | MethodGet =>
      let '(value, exists_) := get (queryKey r) cn in
      if exists_
      then (cn, {| StatusCode := StatusOK; Payload := Some value |})
      else (cn, {| StatusCode := StatusNotFound; Payload := Some [] |})
  | MethodPost =>
      match q_copy (Target r) with
      | None => (cn, {| StatusCode := StatusBadRequest; Payload := Some [] |})
      | Some copy =>
          match Body r with
          | None =>
              (cn, {| StatusCode := StatusBadRequest; Payload := Some [] |})
          | Some kv =>
              (map_fold (λ key value cn, set key copy value cn) cn kv,
               {| StatusCode := StatusOK; Payload := Some [] |})
          end
      end
  | MethodDelete =>
      (remove (queryKey r) cn,
       {| StatusCode := StatusOK; Payload := Some [] |})
  | MethodOther =>
      (cn, {| StatusCode := StatusMethodNotAllowed; Payload := Some [] |})
  end.

End node.

(** *** A cluster of nodes, each serving at its [IP:Port] *)

Module cluster.

Definition serve (r : request) (w : gmap (string * string) cacheNode)
  : gmap (string * string) cacheNode * (error + response) :=
  let addr := (host (Target r), port (Target r)) in
  match w !! addr with
  | None => (w, inl (Err "connection refused"))
  | Some cn =>
      let '(cn', resp) := node.ServeHTTP r cn in
      (<[addr := cn']> w, inr resp)
  end.

End cluster.

(** ** distributedCache.go: the dispatcher

    The dispatcher talks to the outside through [cache.client]. The
    section is parametric in what is out there: [World] is the state of
    the peers and the network, [roundTrip] what one request does to it
    and answers, [parses] whether [http.NewRequest] accepts a URL. *)

Section Dispatcher.

Context {World : Type}.
Variable parses : URL → bool.
Variable roundTrip : request → World → World * (error + response).

(** The state threaded through a dispatcher call: the world, and the
    requests handed to [client.Do] so far. *)
Record net : Type := {
  world : World;
  sent : list request
}.

(** A dispatcher computation: it may panic, and it acts on [net]. *)
Definition D (A : Type) : Type := net → outcome (A * net).

Definition dret {A} (a : A) : D A := λ s, Returns (a, s).
Definition dbind {A B} (m : D A) (k : A → D B) : D B :=
  λ s, match m s with
       | Returns (a, s') => k a s'
       | Panics => Panics
       end.
Definition lift {A} (o : outcome A) : D A :=
  λ s, match o with Returns a => Returns (a, s) | Panics => Panics end.

(** Reading a field through a [*cacheNode]: a nil pointer panics. *)
Definition deref (p : option cacheNode) : D cacheNode :=
  lift (match p with Some cn => Returns cn | None => Panics end).

Definition NewRequest (m : method) (u : URL)
    (body : option (gmap string (list Byte.byte))) : error + request :=
  if parses u then inr {| Method := m; Target := u; Body := body |}
  else inl (Err "parse error").

Definition Do (r : request) : D (error + response) :=
  λ s, let '(w, a) := roundTrip r (world s) in
       Returns (a, {| world := w; sent := sent s ++ [r] |}).

(** [client.Get] and [client.Post] build the request and call [Do]. *)
Definition Get (u : URL) : D (error + response) :=
  match NewRequest MethodGet u None with
  | inl e => dret (inl e)
  | inr r => Do r
  end.

Definition Post (u : URL) (body : gmap string (list Byte.byte))
  : D (error + response) :=
  match NewRequest MethodPost u (Some body) with
  | inl e => dret (inl e)
  | inr r => Do r
  end.

Definition createURL (cnode : cacheNode) (key : string) : URL :=
  {| host := IP (info cnode); port := Port (info cnode);
     q_id := ID (info cnode); q_key := Some key; q_copy := None |}.

Definition createURLForSet (cnode : cacheNode) (key : string) (copy : Z)
  : URL :=
  {| host := IP (info cnode); port := Port (info cnode);
     q_id := ID (info cnode); q_key := None; q_copy := Some copy |}.

Definition getFromNode (cnode : cacheNode) (key : string)
  : D (error + list Byte.byte) :=
  let url := createURL cnode key in
  dbind (Get url) (λ a,
    match a with
    | inl _ => dret (inl (Err "failed to get key"))
    | inr resp =>
        if decide (StatusCode resp ≠ StatusOK)
        then dret (inl (Err "failed to get key"))
        else match Payload resp with
             | None => dret (inl (Err "failed to read response body"))
             | Some value => dret (inr value)
             end
    end).

(** [for idx, node := range nodes] of [get]. *)
Fixpoint getLoop (key : string) (nodes : list (option cacheNode))
  : D (list Byte.byte * bool) :=
  match nodes with
  | [] => dret ([], false)
  | p :: rest =>
      dbind (deref p) (λ cn,
      dbind (getFromNode cn key) (λ a,
        match a with
        | inl _ => getLoop key rest
        | inr data => dret (data, true)
        end))
  end.

Definition get (key : string) (c : distributedCache)
  : D (list Byte.byte * bool) :=
  dbind (lift (ring.getNodes key (redundancy c) (hring c)))
        (getLoop key).

Definition setToNode (cnode : cacheNode) (copy : Z) (key : string)
    (value : list Byte.byte) : D (option error) :=
  let url := createURLForSet cnode key copy in
  let kv : gmap string (list Byte.byte) := {[key := value]} in
  dbind (Post url kv) (λ a,
    match a with
    | inl e => dret (Some e)
    | inr _ => dret None
    end).

(** [for idx, node := range nodes] of [set]; [err] is the variable
    declared before the loop. *)
Fixpoint setLoop (key : string) (value : list Byte.byte) (idx : Z)
    (nodes : list (option cacheNode)) (err : option error)
  : D (option error) :=
  match nodes with
  | [] => dret err
  | p :: rest =>
      dbind (deref p) (λ cn,
      dbind (setToNode cn (idx - 1) key value) (λ err,
        match err with
        | None => dret None
        | Some _ => setLoop key value (idx + 1) rest err
        end))
  end.

Definition set (key : string) (value : list Byte.byte)
    (c : distributedCache) : D (option error) :=
  dbind (lift (ring.getNodes key (redundancy c) (hring c)))
        (λ nodes, setLoop key value 0 nodes None).

Definition remove (key : string) (c : distributedCache) : D bool :=
  dbind (lift (ring.getNode key (hring c))) (λ p,
  dbind (deref p) (λ cn,
    let url := createURL cn key in
    match NewRequest MethodDelete url None with
    | inl _ => dret false
    | inr req =>
        dbind (Do req) (λ a,
          match a with
          | inl _ => dret false
          | inr resp =>
              match Payload resp with
              | None => dret false
              | Some _ => dret true
              end
          end)
    end)).

End Dispatcher.

Arguments net : clear implicits.
Arguments D : clear implicits.

(** ** Histories and the vocabulary of the properties *)

(** The ring is created by [NewHashRing] and changed by [addNode] and
    [removeNode] only. *)
Inductive ringOp : Type :=
| RingAdd (node : nodeInfo)
| RingRemove (nodeID : string).

Definition ringStep (r : hashRing) (op : ringOp) : hashRing :=
  match op with
  | RingAdd node => ring.addNode node r
  | RingRemove nodeID => ring.removeNode nodeID r
  end.

Definition ringRun (ops : list ringOp) : hashRing :=
  foldl ringStep ring.NewHashRing ops.

(** The cache is created by [newDistributedCache] and changed by
    [addNode] (at some clock reading) and [removeNode_unlocked]. *)
Inductive cacheOp : Type :=
| CacheAdd (node : nodeInfo) (now : Z)
| CacheRemove (nodeID : string).

Definition cacheStep (c : distributedCache) (op : cacheOp) : distributedCache :=
  match op with
  | CacheAdd node now => cache.addNode node now c
  | CacheRemove nodeID => cache.removeNode_unlocked nodeID c
  end.

Definition cacheRun (redundancy : Z) (ops : list cacheOp) : distributedCache :=
  foldl cacheStep (cache.newDistributedCache redundancy) ops.

(** The node ID an operation is about. *)
Definition opID (op : cacheOp) : string :=
  match op with
  | CacheAdd node _ => ID node
  | CacheRemove nodeID => nodeID
  end.

(** [hashOf] sends distinct IDs of [ids] to distinct hashes. *)
Definition collisionFree (ids : list string) : Prop :=
  Forall (λ a, Forall (λ b, hashOf a = hashOf b → a = b) ids) ids.

#[global] Instance collisionFree_dec (ids : list string) :
  Decision (collisionFree ids) := _.

(** The IDs of the nodes the ring holds, through its map and through its
    list. *)
Definition mapIDs (r : hashRing) : gset string :=
  list_to_set ((λ e, ID (info e.2)) <$> map_to_list (nodeMap r)).

Definition listIDs (r : hashRing) : gset string :=
  list_to_set ((λ n, ID (info n)) <$> nodes r).

(** [h] is where the key hash [k] lands on the ring [hs]: the smallest
    hash at or after [k], or the smallest hash of all when there is none. *)
Definition landsOn (hs : list Z) (k h : Z) : Prop :=
  h ∈ hs ∧
  ((k ≤ h ∧ ∀ h', h' ∈ hs → k ≤ h' → h ≤ h') ∨
   ((∀ h', h' ∈ hs → h' < k) ∧ ∀ h', h' ∈ hs → h ≤ h')).

(** The node found [i] places clockwise of position [p]. *)
Definition clockwise (r : hashRing) (p i : nat) : option cacheNode :=
  h ← sortedHashes r !! ((p + i) mod length (sortedHashes r))%nat;
  nodeMap r !! h.

(** The request [set] makes of the replica at index [i] under the rank
    rule "replica [i] gets rank [i - 1]". *)
Definition rankedPost (key : string) (value : list Byte.byte) (i : nat)
    (p : option cacheNode) : option request :=
  cn ← p;
  Some {| Method := MethodPost;
          Target := {| host := IP (info cn); port := Port (info cn);
                       q_id := ID (info cn); q_key := None;
                       q_copy := Some (Z.of_nat i - 1) |};
          Body := Some {[key := value]} |}.

(** The requests [set] makes of the replicas [nodes], in order, starting
    at replica index [i0]. *)
Definition rankedPosts (key : string) (value : list Byte.byte) (i0 : nat)
    (nodes : list (option cacheNode)) : list request :=
  omap id (imap (λ i, rankedPost key value (i0 + i)) nodes).

(** The delete request for [key] addressed to [cn]. *)
Definition deleteFor (key : string) (cn : cacheNode) : request :=
  {| Method := MethodDelete;
     Target := {| host := IP (info cn); port := Port (info cn);
                  q_id := ID (info cn); q_key := Some key; q_copy := None |};
     Body := None |}.

(** *** Invariants *)

(** What every ring built by [addNode] and [removeNode] satisfies: the
    hashes are strictly ascending, they are the keys of the map, and a
    node is filed under the hash of its own ID. *)
Record ringInv (r : hashRing) : Prop := {
  inv_sorted : StronglySorted Z.lt (sortedHashes r);
  inv_keys : ∀ h, h ∈ sortedHashes r ↔ is_Some (nodeMap r !! h);
  inv_hash : ∀ h cn, nodeMap r !! h = Some cn → hashOf (ID (info cn)) = h
}.

(** The state of a cache whose history only mentions the IDs [U], no
    two of which collide under CRC-32. *)
Record cacheInv (U : list string) (c : distributedCache) : Prop := {
  cinv_ring : ringInv (hring c);
  cinv_known : ∀ id, is_Some (nodeHB c !! id) → id ∈ U;
  cinv_map : ∀ id, is_Some (nodeHB c !! id)
                   ↔ ∃ cn, nodeMap (hring c) !! hashOf id = Some cn ∧
                           ID (info cn) = id;
  cinv_list : ∀ id, is_Some (nodeHB c !! id)
                    ↔ id ∈ (λ n, ID (info n)) <$> nodes (hring c);
  cinv_nodup : NoDup ((λ n, ID (info n)) <$> nodes (hring c))
}.

(** *** The monitor *)

(** A peer is stale at [now] when its heartbeat is older than
    [now - monitorInterval]. *)
Definition stale (now lastSeen : Z) : Prop :=
  lastSeen < now - discovery.monitorInterval.

(** The test the monitor applies to the entry of [nodeID] in the
    registry [m]. *)
Definition expired (myNodeID : string) (now : Z) (m : gmap string Z)
    (nodeID : string) : bool :=
  match m !! nodeID with
  | Some lastSeen =>
      bool_decide (nodeID ≠ myNodeID) &&
      bool_decide (discovery.monitorInterval < discovery.Sub now lastSeen)
  | None => false
  end.

(** The IDs a sweep removes, in the order it visits them. *)
Definition victims (myNodeID : string) (now : Z) (m : gmap string Z)
    (order : list string) : list string :=
  filter (λ id, expired myNodeID now m id = true) order.

(** The entry of the node [id] in the ring, when it has one. *)
Definition ringEntry (id : string) (r : hashRing) (cn : cacheNode) : Prop :=
  nodeMap r !! hashOf id = Some cn ∧ ID (info cn) = id.

(** The local node keeps the ring entry it had. *)
Definition keepsOwnRingEntry (myNodeID : string) (c c' : distributedCache)
  : Prop :=
  ∀ cn, ringEntry myNodeID (hring c) cn → ringEntry myNodeID (hring c') cn.

(** A sweep that takes [c] to [c'] expires every stale peer but the local
    one from the registry and from the ring, and leaves the local node in
    both. *)
Definition sweepExpiresOthersOnly (myNodeID : string) (now : Z)
    (c c' : distributedCache) : Prop :=
  (∀ id lastSeen,
     id ≠ myNodeID → nodeHB c !! id = Some lastSeen → stale now lastSeen →
     nodeHB c' !! id = None ∧ id ∉ mapIDs (hring c')) ∧
  nodeHB c' !! myNodeID = nodeHB c !! myNodeID ∧
  keepsOwnRingEntry myNodeID c c'.

(** ** Sample nodes and worlds *)

Definition mkNode (id ip port group : string) : nodeInfo :=
  {| ID := id; IP := ip; Port := port; GroupID := group |}.

Definition node1 : nodeInfo := mkNode "node1" "127.0.0.1" "8081" "A".
Definition node2 : nodeInfo := mkNode "node2" "127.0.0.1" "8082" "A".
Definition node3 : nodeInfo := mkNode "node3" "127.0.0.1" "8083" "A".
Definition plumless : nodeInfo := mkNode "plumless" "10.0.0.1" "8081" "A".
Definition buckeroo : nodeInfo := mkNode "buckeroo" "10.0.0.2" "8081" "B".

(** A network on which every request is answered "503 Service
    Unavailable", and one on which no request gets through. *)
Definition answers503 (r : request) (w : unit) : unit * (error + response) :=
  (w, inr {| StatusCode := 503; Payload := Some [] |}).

Definition unreachable (r : request) (w : unit) : unit * (error + response) :=
  (w, inl (Err "no route to host")).

(** The nodes of the samples, each serving at its address with an empty
    store but for "key1" held by all three. *)
Definition held : gmap string cacheData :=
  {["key1" := {| bytes := []; copy := 0; crc := 0 |}]}.

Definition threeServers : gmap (string * string) cacheNode :=
  {[("127.0.0.1", "8081") := {| info := node1; data := held |};
    ("127.0.0.1", "8082") := {| info := node2; data := held |};
    ("127.0.0.1", "8083") := {| info := node3; data := held |}]}.

(** Three peers heard at 0 s, 0 s and 15 s. *)
Definition threePeers : list cacheOp :=
  [CacheAdd node1 0; CacheAdd node2 0; CacheAdd node3 15000000000].

(** Two peers whose IDs have the same CRC-32, both heard at 0 s:
    "plumless" is the local node, added by [Start]; "buckeroo" is in
    another group, so the receiver of "plumless" hands its heartbeats to
    [cache.addNode]. *)
Definition twins : list cacheOp :=
  [CacheAdd plumless 0; CacheAdd buckeroo 0].

(** ** The sender, [start], and the requests of [get] *)


(** [cache.start(node)]: the descriptor discovery is started with, or
    [None] when [getNodeByID] yields nil and [start] returns after
    logging "failed to get node by ID". *)
Definition start (node : nodeInfo) (c : distributedCache) : option nodeInfo :=
  match ring.getNodeByID (ID node) (hring c) with
  | None => None
  | Some cnode => Some (info cnode)
  end.

(** The GET request for [key] addressed to [cn]. *)
Definition getFor (key : string) (cn : cacheNode) : request :=
  {| Method := MethodGet;
     Target := {| host := IP (info cn); port := Port (info cn);
                  q_id := ID (info cn); q_key := Some key; q_copy := None |};
     Body := None |}.

(** The requests [get] makes of the replicas [nodes], in order. *)
Definition getRequests (key : string) (nodes : list (option cacheNode))
  : list request :=
  omap (fmap (getFor key)) nodes.



(** The entry [cnode.set] writes for [value] with copy factor [copy]. *)
Definition entryOf (copy : Z) (value : list Byte.byte) : cacheData :=
  {| bytes := value; copy := copy; crc := crc32.ChecksumIEEE value |}.

(** * Properties *)

(** ** CRC-32 *)

Example crc32_check : hashOf "123456789" = 0xcbf43926.
Proof. vm_compute. reflexivity. Qed.

Example crc32_node_hashes :
  hashOf "node1" = 2247042368 ∧ hashOf "node2" = 484865274 ∧
  hashOf "node3" = 1809925228 ∧ hashOf "key1" = 744252496.
Proof. vm_compute. auto. Qed.

Example crc32_collision : hashOf "plumless" = hashOf "buckeroo".
Proof. vm_compute. reflexivity. Qed.

Example ring_three_nodes :
  sortedHashes (ringRun [RingAdd node1; RingAdd node2; RingAdd node3])
  = [484865274; 1809925228; 2247042368].
Proof. vm_compute. reflexivity. Qed.

Example getNode_key1 :
  ring.getNode "key1" (ringRun [RingAdd node1; RingAdd node2; RingAdd node3])
  = Returns (Some (newCacheNode node3)).
Proof. vm_compute. reflexivity. Qed.

Example getNodes_key1 :
  ring.getNodes "key1" 1 (ringRun [RingAdd node1; RingAdd node2; RingAdd node3])
  = Returns [Some (newCacheNode node3); Some (newCacheNode node1)].
Proof. vm_compute. reflexivity. Qed.

(** ** The ring invariant *)

Lemma strictly_sorted_NoDup (l : list Z) : StronglySorted Z.lt l → NoDup l.
Proof.
  induction 1 as [|x l Hs IH Hx]; constructor; [|done].
  intros Hin. rewrite Forall_forall in Hx. specialize (Hx _ Hin). lia.
Qed.

Lemma sorted_le_NoDup_lt (l : list Z) :
  StronglySorted Z.le l → NoDup l → StronglySorted Z.lt l.
Proof.
  induction 1 as [|x l Hs IH Hx]; intros Hnd; [constructor|].
  apply NoDup_cons in Hnd as [Hx' Hnd].
  constructor; [by apply IH|].
  rewrite Forall_forall in Hx |- *. intros y Hy.
  assert (x ≠ y) by (intros ->; done).
  specialize (Hx _ Hy). lia.
Qed.

Lemma Slice_Permutation (s : list Z) : sort.Slice s ≡ₚ s.
Proof. apply merge_sort_Permutation. Qed.

Lemma Slice_strictly_sorted (s : list Z) :
  NoDup s → StronglySorted Z.lt (sort.Slice s).
Proof.
  intros Hnd. apply sorted_le_NoDup_lt.
  - apply StronglySorted_merge_sort.
    + intros x y z; lia.
    + intros x y; lia.
  - by rewrite Slice_Permutation.
Qed.

Lemma dropHash_elem_of (hash : Z) (s : list Z) (x : Z) :
  NoDup s → x ∈ ring.dropHash hash s ↔ x ∈ s ∧ x ≠ hash.
Proof.
  induction s as [|h s IH]; simpl; intros Hnd.
  - set_solver.
  - apply NoDup_cons in Hnd as [Hh Hnd]. case_decide as Heq.
    + subst. set_solver.
    + rewrite !elem_of_cons, IH by done. naive_solver.
Qed.

Lemma dropHash_sorted (hash : Z) (s : list Z) :
  StronglySorted Z.lt s → StronglySorted Z.lt (ring.dropHash hash s).
Proof.
  induction 1 as [|h s Hs IH Hh]; simpl; [constructor|].
  case_decide; [done|].
  constructor; [done|].
  rewrite Forall_forall in Hh |- *. intros y Hy.
  apply Hh. apply dropHash_elem_of in Hy; [tauto|].
  by apply strictly_sorted_NoDup.
Qed.

Lemma ringInv_new : ringInv ring.NewHashRing.
Proof.
  split; simpl.
  - constructor.
  - intros h. rewrite lookup_empty. split; [by intros ?%elem_of_nil|by intros [? ?]].
  - intros h cn. by rewrite lookup_empty.
Qed.

Lemma ringInv_addNode (node : nodeInfo) (r : hashRing) :
  ringInv r → ringInv (ring.addNode node r).
Proof.
  intros [Hs Hk Hh]. unfold ring.addNode.
  destruct (nodeMap r !! hashOf (ID node)) eqn:Hlk; [by split|].
  assert (hashOf (ID node) ∉ sortedHashes r) as Hfresh.
  { rewrite Hk, Hlk. by intros [? ?]. }
  split; simpl.
  - apply Slice_strictly_sorted. apply NoDup_app. split_and!.
    + by apply strictly_sorted_NoDup.
    + intros x Hx ->%list_elem_of_singleton. done.
    + apply NoDup_singleton.
  - intros h. rewrite Slice_Permutation, elem_of_app, list_elem_of_singleton, Hk.
    rewrite lookup_insert. case_decide; subst; naive_solver.
  - intros h cn. rewrite lookup_insert. case_decide; subst.
    + by intros [= <-].
    + apply Hh.
Qed.

Lemma ringInv_removeNode (nodeID : string) (r : hashRing) :
  ringInv r → ringInv (ring.removeNode nodeID r).
Proof.
  intros [Hs Hk Hh]. unfold ring.removeNode.
  destruct (nodeMap r !! hashOf nodeID) eqn:Hlk; [|by split].
  split; simpl.
  - by apply dropHash_sorted.
  - intros h. rewrite dropHash_elem_of by by apply strictly_sorted_NoDup.
    rewrite Hk, lookup_delete. case_decide; subst; naive_solver.
  - intros h cn. rewrite lookup_delete. case_decide; [done|apply Hh].
Qed.

Lemma ringInv_step (r : hashRing) (op : ringOp) :
  ringInv r → ringInv (ringStep r op).
Proof. destruct op; [apply ringInv_addNode|apply ringInv_removeNode]. Qed.

Lemma ringInv_foldl (ops : list ringOp) (r : hashRing) :
  ringInv r → ringInv (foldl ringStep r ops).
Proof.
  revert r. induction ops as [|op ops IH]; simpl; [done|].
  intros r Hr. by apply IH, ringInv_step.
Qed.

Lemma ringInv_run (ops : list ringOp) : ringInv (ringRun ops).
Proof. apply ringInv_foldl, ringInv_new. Qed.

(** ** sort.Search over the ring *)

Lemma sorted_lookup_lt (s : list Z) (k1 k2 : nat) (a b : Z) :
  StronglySorted Z.lt s → (k1 < k2)%nat →
  s !! k1 = Some a → s !! k2 = Some b → a < b.
Proof.
  intros Hs. revert k1 k2. induction Hs as [|x s Hs IH Hx]; intros k1 k2 Hlt H1 H2.
  - by rewrite lookup_nil in H1.
  - destruct k2 as [|k2]; [lia|]. destruct k1 as [|k1]; simpl in *.
    + injection H1 as ->. rewrite Forall_forall in Hx.
      apply Hx. by eapply list_elem_of_lookup_2.
    + eapply (IH k1 k2); [lia|done..].
Qed.

Lemma half_between (i j : nat) :
  (i < j)%nat → (i ≤ (i + j) / 2 < j)%nat.
Proof.
  intros Hlt. split.
  - apply Nat.div_le_lower_bound; lia.
  - apply Nat.Div0.div_lt_upper_bound; lia.
Qed.

(** The loop of [sort.Search] over a strictly ascending slice: with
    enough iterations it returns the boundary between the hashes below
    [hash] and those at or above it, and it does not panic. *)
Lemma search_loop_boundary (r : hashRing) (hash : Z) (fuel i j : nat) :
  StronglySorted Z.lt (sortedHashes r) →
  (i ≤ j ≤ length (sortedHashes r))%nat → (j - i ≤ fuel)%nat →
  (∀ k x, (k < i)%nat → sortedHashes r !! k = Some x → x < hash) →
  (∀ k x, (j ≤ k)%nat → sortedHashes r !! k = Some x → hash ≤ x) →
  ∃ m, sort.search_loop fuel (ring.atLeast r hash) i j = Returns m ∧
       (i ≤ m ≤ j)%nat ∧
       (∀ k x, (k < m)%nat → sortedHashes r !! k = Some x → x < hash) ∧
       (∀ k x, (m ≤ k)%nat → sortedHashes r !! k = Some x → hash ≤ x).
Proof.
  intros Hs. revert i j.
  induction fuel as [|fuel IH]; intros i j Hij Hfuel Hlo Hhi;
    cbn [sort.search_loop].
  - exists i. split_and!; [done|lia|lia|done|].
    intros k x Hk. apply Hhi. lia.
  - case_decide as Hlt.
    + pose proof (half_between i j Hlt) as Hh.
      set (h := ((i + j) / 2)%nat) in *.
      destruct (lookup_lt_is_Some_2 (sortedHashes r) h) as [x Hx]; [lia|].
      unfold ring.atLeast at 1, index. rewrite Hx. simpl.
      case_bool_decide as Hcmp; simpl.
      * destruct (IH i h) as (m & Hm & Hr & Hlo' & Hhi'); [lia|lia|done| |].
        { intros k y Hk Hy. destruct (decide (k = h)) as [->|Hne].
          - congruence.
          - assert (x < y); [|lia].
            eapply (sorted_lookup_lt _ h k); [done|lia|done..]. }
        exists m. split_and!; [done|lia|lia|done..].
      * destruct (IH (h + 1)%nat j) as (m & Hm & Hr & Hlo' & Hhi'); [lia|lia| |done|].
        { intros k y Hk Hy. destruct (decide (k = h)) as [->|Hne].
          - assert (x = y) by congruence. lia.
          - assert (y < x); [|lia].
            eapply (sorted_lookup_lt _ k h); [done|lia|done..]. }
        exists m. split_and!; [done|lia|lia|done..].
    + exists i. split_and!; [done|lia|lia|done|].
      intros k x Hk. apply Hhi. lia.
Qed.

(** Extra iterations do not change the result of the loop. *)
Lemma search_loop_fuel (r : hashRing) (hash : Z) (fuel fuel' i j : nat) :
  StronglySorted Z.lt (sortedHashes r) →
  (i ≤ j ≤ length (sortedHashes r))%nat →
  (j - i ≤ fuel)%nat → (j - i ≤ fuel')%nat →
  sort.search_loop fuel (ring.atLeast r hash) i j
  = sort.search_loop fuel' (ring.atLeast r hash) i j.
Proof.
  intros Hs. revert fuel' i j.
  induction fuel as [|fuel IH]; intros [|fuel'] i j Hij H1 H2;
    cbn [sort.search_loop]; try done.
  - case_decide; [lia|done].
  - case_decide; [lia|done].
  - case_decide as Hlt; [|done].
    pose proof (half_between i j Hlt) as Hh.
    set (h := ((i + j) / 2)%nat) in *.
    destruct (ring.atLeast r hash h) as [b|]; cbn [obind]; [|done].
    destruct b; cbn [negb]; apply IH; lia.
Qed.

Lemma Search_boundary (r : hashRing) (hash : Z) :
  StronglySorted Z.lt (sortedHashes r) →
  ∃ m, sort.Search (length (sortedHashes r)) (ring.atLeast r hash) = Returns m ∧
       (m ≤ length (sortedHashes r))%nat ∧
       (∀ k x, (k < m)%nat → sortedHashes r !! k = Some x → x < hash) ∧
       (∀ k x, (m ≤ k)%nat → sortedHashes r !! k = Some x → hash ≤ x).
Proof.
  intros Hs. unfold sort.Search.
  destruct (search_loop_boundary r hash (length (sortedHashes r)) 0
              (length (sortedHashes r)) Hs) as (m & Hm & Hr & Hlo & Hhi);
    [lia|lia|intros; lia| |].
  { intros k x Hk Hx. apply lookup_lt_Some in Hx. lia. }
  exists m. split_and!; [done|lia|done..].
Qed.

(** The primary index of a non-empty ring is in range and lands on the
    clockwise owner of the key hash. *)
Lemma primaryIdx_landsOn (r : hashRing) (hash : Z) :
  StronglySorted Z.lt (sortedHashes r) → sortedHashes r ≠ [] →
  ∃ p h, ring.primaryIdx hash r = Returns p ∧
         sortedHashes r !! p = Some h ∧
         landsOn (sortedHashes r) hash h.
Proof.
  intros Hs Hne. unfold ring.primaryIdx.
  destruct (Search_boundary r hash Hs) as (m & -> & Hm & Hlo & Hhi). simpl.
  assert (0 < length (sortedHashes r))%nat as Hlen.
  { destruct (sortedHashes r); [done|simpl; lia]. }
  case_decide as Hend.
  - destruct (lookup_lt_is_Some_2 (sortedHashes r) 0) as [h Hh]; [lia|].
    exists 0%nat, h. split_and!; [done..|]. split; [by eapply list_elem_of_lookup_2|].
    right. split.
    + intros h' (k & Hk)%list_elem_of_lookup. apply (Hlo k); [|done].
      apply lookup_lt_Some in Hk. lia.
    + intros h' (k & Hk)%list_elem_of_lookup.
      destruct k as [|k]; [assert (h = h') by congruence; lia|].
      assert (h < h'); [|lia]. eapply (sorted_lookup_lt _ 0 (S k)); [done|lia|done..].
  - destruct (lookup_lt_is_Some_2 (sortedHashes r) m) as [h Hh]; [lia|].
    exists m, h. split_and!; [done..|]. split; [by eapply list_elem_of_lookup_2|].
    left. split; [by apply (Hhi m)|].
    intros h' (k & Hk)%list_elem_of_lookup Hge.
    destruct (decide (k < m)%nat) as [Hkm|Hkm].
    + specialize (Hlo k h' Hkm Hk). lia.
    + destruct (decide (k = m)) as [->|Hne']; [assert (h = h') by congruence; lia|].
      assert (h < h'); [|lia]. eapply (sorted_lookup_lt _ m k); [done|lia|done..].
Qed.

Lemma primaryIdx_empty (r : hashRing) (hash : Z) :
  sortedHashes r = [] → ring.primaryIdx hash r = Returns 0%nat.
Proof. intros Hnil. unfold ring.primaryIdx. by rewrite Hnil. Qed.

(** ** Walking the ring clockwise *)

Lemma wrap_succ (n m j : nat) :
  (0 < n)%nat →
  (if decide (n ≤ (m + j) mod n + 1)%nat then 0%nat
   else ((m + j) mod n + 1)%nat)
  = ((m + (j + 1)) mod n)%nat.
Proof.
  intros Hn. pose proof (Nat.mod_upper_bound (m + j) n ltac:(lia)) as Hlt.
  assert ((m + (j + 1)) mod n = ((m + j) mod n + 1) mod n)%nat as ->.
  { rewrite Nat.Div0.add_mod_idemp_l. f_equal. lia. }
  set (a := ((m + j) mod n)%nat) in *.
  case_decide as Hd.
  - replace (a + 1)%nat with n by lia. by rewrite Nat.Div0.mod_same.
  - rewrite Nat.mod_small; lia.
Qed.

Lemma mod_shift_inj (n p i i' : nat) :
  (i < n)%nat → (i' < n)%nat →
  ((p + i) mod n = (p + i') mod n)%nat → i = i'.
Proof.
  intros Hi Hi' Heq.
  pose proof (Nat.div_mod_eq (p + i) n) as H1.
  pose proof (Nat.div_mod_eq (p + i') n) as H2.
  rewrite Heq in H1.
  set (q := ((p + i) / n)%nat) in *. set (q' := ((p + i') / n)%nat) in *.
  set (a := ((p + i') mod n)%nat) in *.
  destruct (decide (q = q')) as [->|Hne]; [lia|].
  nia.
Qed.

Lemma mod_shift_back (n m j : nat) :
  (m < n)%nat → (j < n)%nat →
  ((m + (j + 1)) mod n = m)%nat ↔ (j + 1 = n)%nat.
Proof.
  intros Hm Hj. split.
  - intros Heq. destruct (decide (j + 1 = n)%nat) as [|Hne]; [done|].
    assert ((m + (j + 1)) mod n = (m + 0) mod n)%nat as Heq'.
    { rewrite Heq, Nat.add_0_r, Nat.mod_small; lia. }
    apply mod_shift_inj in Heq'; lia.
  - intros <-. replace (m + (j + 1))%nat with (m + 1 * (j + 1))%nat by lia.
    rewrite Nat.Div0.mod_add, Nat.mod_small; lia.
Qed.

Lemma clockwise_lookup (r : hashRing) (p i : nat) :
  sortedHashes r ≠ [] →
  ∃ h, sortedHashes r !! ((p + i) mod length (sortedHashes r))%nat = Some h ∧
       clockwise r p i = nodeMap r !! h.
Proof.
  intros Hne.
  assert (0 < length (sortedHashes r))%nat as Hlen.
  { destruct (sortedHashes r); [done|simpl; lia]. }
  destruct (lookup_lt_is_Some_2 (sortedHashes r)
              ((p + i) mod length (sortedHashes r))%nat) as [h Hh].
  { apply Nat.mod_upper_bound. lia. }
  exists h. split; [done|]. unfold clockwise. by rewrite Hh.
Qed.

(** The loop of [getNodes], started [j] places after the master index:
    it appends the next nodes clockwise until [redundancy] runs out or
    the walk is back at the master. *)
Lemma walk_clockwise (r : hashRing) (m : nat) (k j : nat)
    (acc : list (option cacheNode)) :
  (m < length (sortedHashes r))%nat → (j < length (sortedHashes r))%nat →
  ring.walk k r m ((m + j) mod length (sortedHashes r))%nat acc
  = Returns (acc ++ (clockwise r m <$>
                       seq (S j) (k `min` (length (sortedHashes r) - 1 - j)))).
Proof.
  intros Hm. revert j acc. induction k as [|k IH]; intros j acc Hj.
  - simpl. by rewrite app_nil_r.
  - cbn [ring.walk]. rewrite wrap_succ by lia.
    case_decide as Hback.
    + apply mod_shift_back in Hback; [|done..].
      replace (length (sortedHashes r) - 1 - j)%nat with 0%nat by lia.
      rewrite Nat.min_0_r. simpl. by rewrite app_nil_r.
    + assert (j + 1 < length (sortedHashes r))%nat as Hj'.
      { destruct (decide (j + 1 = length (sortedHashes r))%nat) as [He|]; [|lia].
        apply (mod_shift_back _ m j) in He; done. }
      destruct (clockwise_lookup r m (j + 1)) as (h & Hh & Hcw).
      { intros Hnil. rewrite Hnil in Hm. simpl in Hm. lia. }
      unfold index. rewrite Hh. cbn [obind].
      rewrite IH by done. f_equal.
      replace (S k `min` (length (sortedHashes r) - 1 - j))%nat
        with (S (k `min` (length (sortedHashes r) - 1 - (j + 1))))%nat by lia.
      cbn [seq fmap list_fmap]. rewrite <- app_assoc. simpl.
      replace (S j) with (j + 1)%nat by lia. by rewrite Hcw.
Qed.

(** [getNodes] on a non-empty ring: the primary and the nodes after it,
    clockwise, as many as [redundancy] asks for and the ring has. *)
Lemma getNodes_clockwise (r : hashRing) (key : string) (red : Z) :
  StronglySorted Z.lt (sortedHashes r) → sortedHashes r ≠ [] →
  ∃ p, ring.primaryIdx (hashOf key) r = Returns p ∧
       (p < length (sortedHashes r))%nat ∧
       ring.getNode key r = Returns (clockwise r p 0) ∧
       ring.getNodes key red r
       = Returns (clockwise r p <$>
                    seq 0 (S (Z.to_nat red `min` (length (sortedHashes r) - 1)))).
Proof.
  intros Hs Hne.
  destruct (primaryIdx_landsOn r (hashOf key) Hs Hne) as (p & h & Hp & Hh & _).
  pose proof (lookup_lt_Some _ _ _ Hh) as Hlt.
  assert (clockwise r p 0 = nodeMap r !! h) as Hcw.
  { unfold clockwise. rewrite Nat.add_0_r, Nat.mod_small by done.
    by rewrite Hh. }
  exists p. split_and!; [done..| |].
  - unfold ring.getNode. rewrite Hp. cbn [obind]. unfold index.
    rewrite Hh. cbn [obind]. by rewrite Hcw.
  - unfold ring.getNodes. rewrite Hp. cbn [obind]. unfold index.
    rewrite Hh. cbn [obind].
    pose proof (walk_clockwise r p (Z.to_nat red) 0 ([] ++ [nodeMap r !! h]))
      as Hw.
    rewrite Nat.add_0_r, Nat.mod_small in Hw by done.
    rewrite Hw by lia. f_equal. cbn [seq fmap list_fmap app].
    rewrite Hcw. do 3 f_equal. lia.
Qed.

Lemma empty_ring_getNode (r : hashRing) (key : string) :
  sortedHashes r = [] → ring.getNode key r = Panics.
Proof.
  intros Hnil. unfold ring.getNode. rewrite primaryIdx_empty by done.
  cbn [obind]. by rewrite Hnil.
Qed.

Lemma empty_ring_getNodes (r : hashRing) (key : string) (red : Z) :
  sortedHashes r = [] → ring.getNodes key red r = Panics.
Proof.
  intros Hnil. unfold ring.getNodes. rewrite primaryIdx_empty by done.
  cbn [obind]. by rewrite Hnil.
Qed.

(** Distinct places within one turn of the ring hold distinct nodes. *)
Lemma clockwise_inj (r : hashRing) (p i i' : nat) :
  ringInv r →
  (i < length (sortedHashes r))%nat → (i' < length (sortedHashes r))%nat →
  clockwise r p i = clockwise r p i' → i = i'.
Proof.
  intros [Hs Hk Hh] Hi Hi' Heq.
  assert (sortedHashes r ≠ []) as Hne.
  { intros Hnil. rewrite Hnil in Hi. simpl in Hi. lia. }
  destruct (clockwise_lookup r p i Hne) as (h & Hl & Hc).
  destruct (clockwise_lookup r p i' Hne) as (h' & Hl' & Hc').
  rewrite Hc, Hc' in Heq.
  destruct (proj1 (Hk h)) as [cn Hcn]; [by eapply list_elem_of_lookup_2|].
  assert (h = h') as <-.
  { rewrite Hcn in Heq. symmetry in Heq.
    rewrite <- (Hh _ _ Hcn). by rewrite <- (Hh _ _ Heq). }
  eapply mod_shift_inj; [done..|].
  eapply NoDup_lookup; [by apply strictly_sorted_NoDup|done..].
Qed.

Lemma clockwise_is_Some (r : hashRing) (p i : nat) :
  ringInv r → sortedHashes r ≠ [] → is_Some (clockwise r p i).
Proof.
  intros [Hs Hk Hh] Hne.
  destruct (clockwise_lookup r p i Hne) as (h & Hl & ->).
  apply Hk. by eapply list_elem_of_lookup_2.
Qed.

(** ** The ring: ordering, lookups, replicas *)

(** C9. After every sequence of [addNode] and [removeNode] on the hash
    ring, [sortedHashes] is strictly ascending and its elements are
    exactly the keys of [nodeMap]; [addNode] of a node whose hash is
    already present leaves the ring as it is. *)
Theorem ring_hashes_strictly_ascending (ops : list ringOp) (node : nodeInfo) :
  StronglySorted Z.lt (sortedHashes (ringRun ops)) ∧
  list_to_set (sortedHashes (ringRun ops)) =@{gset Z} dom (nodeMap (ringRun ops)) ∧
  (hashOf (ID node) ∈ dom (nodeMap (ringRun ops)) →
   ring.addNode node (ringRun ops) = ringRun ops).
Proof.
  destruct (ringInv_run ops) as [Hs Hk Hh]. split_and!.
  - done.
  - apply set_eq. intros h. by rewrite elem_of_list_to_set, elem_of_dom.
  - intros [cn Hcn]%elem_of_dom. unfold ring.addNode. by rewrite Hcn.
Qed.

Lemma ring_hashes_strictly_ascending_witness :
  hashOf (ID node2)
    ∈ dom (nodeMap (ringRun [RingAdd node1; RingAdd node2;
                             RingRemove "node1"; RingAdd node3])) ∧
  ring.addNode node2 (ringRun [RingAdd node1; RingAdd node2;
                               RingRemove "node1"; RingAdd node3])
  = ringRun [RingAdd node1; RingAdd node2; RingRemove "node1"; RingAdd node3].
Proof.
  assert (hashOf (ID node2)
    ∈ dom (nodeMap (ringRun [RingAdd node1; RingAdd node2;
                             RingRemove "node1"; RingAdd node3]))) as Hin.
  { apply elem_of_dom. vm_compute. eexists. reflexivity. }
  split; [exact Hin|].
  apply (ring_hashes_strictly_ascending
           [RingAdd node1; RingAdd node2; RingRemove "node1"; RingAdd node3]
           node2).
  exact Hin.
Defined.

(** C4. On a non-empty ring [getNode] returns the node filed under the
    smallest ring hash at or above the CRC-32 of the key, wrapping to the
    smallest hash of all when there is none; the call fails (it panics)
    only when the ring is empty. *)
Theorem getNode_clockwise_owner (ops : list ringOp) (key : string) :
  (sortedHashes (ringRun ops) ≠ [] →
   ∃ h cn, ring.getNode key (ringRun ops) = Returns (Some cn) ∧
           nodeMap (ringRun ops) !! h = Some cn ∧
           hashOf (ID (info cn)) = h ∧
           landsOn (sortedHashes (ringRun ops)) (hashOf key) h) ∧
  (ring.getNode key (ringRun ops) = Panics ↔ sortedHashes (ringRun ops) = []).
Proof.
  pose proof (ringInv_run ops) as Hinv. destruct Hinv as [Hs Hk Hh].
  assert (sortedHashes (ringRun ops) ≠ [] →
   ∃ h cn, ring.getNode key (ringRun ops) = Returns (Some cn) ∧
           nodeMap (ringRun ops) !! h = Some cn ∧
           hashOf (ID (info cn)) = h ∧
           landsOn (sortedHashes (ringRun ops)) (hashOf key) h) as Hmain.
  { intros Hne.
    destruct (primaryIdx_landsOn _ (hashOf key) Hs Hne) as (p & h & Hp & Hl & Hon).
    destruct (proj1 (Hk h)) as [cn Hcn]; [by eapply list_elem_of_lookup_2|].
    exists h, cn. split_and!; [|done|by eapply Hh|done].
    unfold ring.getNode. rewrite Hp. cbn [obind]. unfold index.
    rewrite Hl. cbn [obind]. by rewrite Hcn. }
  split; [done|]. split.
  - intros Hpanic. destruct (decide (sortedHashes (ringRun ops) = [])) as [|Hne]; [done|].
    destruct (Hmain Hne) as (h & cn & Hget & _). congruence.
  - apply empty_ring_getNode.
Qed.

Lemma getNode_clockwise_owner_witness :
  sortedHashes (ringRun [RingAdd node1; RingAdd node2; RingAdd node3]) ≠ [] ∧
  ∃ h cn,
    ring.getNode "key3" (ringRun [RingAdd node1; RingAdd node2; RingAdd node3])
    = Returns (Some cn) ∧
    nodeMap (ringRun [RingAdd node1; RingAdd node2; RingAdd node3]) !! h
    = Some cn ∧
    hashOf (ID (info cn)) = h ∧
    landsOn (sortedHashes (ringRun [RingAdd node1; RingAdd node2; RingAdd node3]))
            (hashOf "key3") h.
Proof.
  assert (sortedHashes (ringRun [RingAdd node1; RingAdd node2; RingAdd node3])
          ≠ []) as Hne.
  { vm_compute. discriminate. }
  split; [exact Hne|].
  apply (getNode_clockwise_owner [RingAdd node1; RingAdd node2; RingAdd node3]
           "key3").
  exact Hne.
Defined.

(** The key of the witness lies past every node hash, so the lookup wraps
    to the first node of the ring. *)
Example getNode_wraps :
  ring.getNode "key3" (ringRun [RingAdd node1; RingAdd node2; RingAdd node3])
  = Returns (Some (newCacheNode node2)).
Proof. vm_compute. reflexivity. Qed.

(** C10. On an empty ring neither [getNode] nor [getNodes] returns a
    value, error or otherwise: both index position 0 of the empty
    [sortedHashes] and panic. A ring built by [addNode] and [removeNode]
    makes them panic exactly when it is empty. *)
Theorem lookups_panic_on_empty_ring (r : hashRing) (ops : list ringOp)
    (key : string) (red : Z) :
  (sortedHashes r = [] →
   ring.getNode key r = Panics ∧ ring.getNodes key red r = Panics) ∧
  (ring.getNode key (ringRun ops) = Panics ↔ sortedHashes (ringRun ops) = []) ∧
  (ring.getNodes key red (ringRun ops) = Panics
   ↔ sortedHashes (ringRun ops) = []).
Proof.
  split_and!.
  - intros Hnil. split; [by apply empty_ring_getNode|by apply empty_ring_getNodes].
  - split; [|apply empty_ring_getNode].
    intros Hpanic.
    destruct (decide (sortedHashes (ringRun ops) = [])) as [|Hne]; [done|].
    destruct (getNodes_clockwise (ringRun ops) key red) as (p & _ & _ & Hg & _);
      [apply ringInv_run|done|congruence].
  - split; [|apply empty_ring_getNodes].
    intros Hpanic.
    destruct (decide (sortedHashes (ringRun ops) = [])) as [|Hne]; [done|].
    destruct (getNodes_clockwise (ringRun ops) key red) as (p & _ & _ & _ & Hg);
      [apply ringInv_run|done|congruence].
Qed.

Lemma lookups_panic_on_empty_ring_witness :
  sortedHashes ring.NewHashRing = [] ∧
  ring.getNode "key1" ring.NewHashRing = Panics ∧
  ring.getNodes "key1" 1 ring.NewHashRing = Panics.
Proof.
  split; [reflexivity|].
  apply (lookups_panic_on_empty_ring ring.NewHashRing [] "key1" 1).
  reflexivity.
Defined.

(** C3. On a non-empty ring, for every key and every redundancy
    [red ≥ 0], [getNodes] returns [min (ring size) (red + 1)] nodes, no
    two the same, taken clockwise from the primary; the first of them is
    what [getNode] returns. *)
Theorem getNodes_replicas (ops : list ringOp) (key : string) (red : Z) :
  0 ≤ red → sortedHashes (ringRun ops) ≠ [] →
  ∃ p l,
    ring.primaryIdx (hashOf key) (ringRun ops) = Returns p ∧
    ring.getNodes key red (ringRun ops) = Returns l ∧
    length l = (length (sortedHashes (ringRun ops)) `min` (Z.to_nat red + 1))%nat ∧
    NoDup l ∧
    (∀ i, (i < length l)%nat →
          ∃ cn, l !! i = Some (Some cn) ∧ clockwise (ringRun ops) p i = Some cn) ∧
    (∃ first, l !! 0%nat = Some first ∧
              ring.getNode key (ringRun ops) = Returns first).
Proof.
  intros Hred Hne. pose proof (ringInv_run ops) as Hinv.
  destruct (getNodes_clockwise (ringRun ops) key red (inv_sorted _ Hinv) Hne)
    as (p & Hp & Hlt & Hget & Hgets).
  set (n := length (sortedHashes (ringRun ops))) in *.
  set (len := S (Z.to_nat red `min` (n - 1))) in *.
  exists p, (clockwise (ringRun ops) p <$> seq 0 len).
  assert (len ≤ n)%nat as Hlen by (unfold len; lia).
  split_and!; [done|done| | | |].
  - rewrite length_fmap, length_seq. unfold len. lia.
  - apply NoDup_fmap_2_strong; [|apply NoDup_seq].
    intros i i' Hi%elem_of_seq Hi'%elem_of_seq Heq.
    eapply clockwise_inj; [done|unfold n in *; lia..|done].
  - intros i Hi. rewrite length_fmap, length_seq in Hi.
    destruct (clockwise_is_Some (ringRun ops) p i Hinv Hne) as [cn Hcn].
    exists cn. split; [|done].
    rewrite list_lookup_fmap, lookup_seq_lt by done. simpl. by rewrite Hcn.
  - exists (clockwise (ringRun ops) p 0). split; [|done]. reflexivity.
Qed.

Lemma getNodes_replicas_witness :
  ∃ p l,
    ring.primaryIdx (hashOf "key1")
      (ringRun [RingAdd node1; RingAdd node2; RingAdd node3]) = Returns p ∧
    ring.getNodes "key1" 5 (ringRun [RingAdd node1; RingAdd node2; RingAdd node3])
    = Returns l ∧
    length l
    = (length (sortedHashes (ringRun [RingAdd node1; RingAdd node2; RingAdd node3]))
       `min` (Z.to_nat 5 + 1))%nat ∧
    NoDup l ∧
    (∀ i, (i < length l)%nat →
          ∃ cn, l !! i = Some (Some cn) ∧
                clockwise (ringRun [RingAdd node1; RingAdd node2; RingAdd node3])
                          p i = Some cn) ∧
    (∃ first, l !! 0%nat = Some first ∧
              ring.getNode "key1"
                (ringRun [RingAdd node1; RingAdd node2; RingAdd node3])
              = Returns first).
Proof.
  apply (getNodes_replicas [RingAdd node1; RingAdd node2; RingAdd node3]
           "key1" 5).
  - lia.
  - vm_compute. discriminate.
Defined.

(** With more redundancy than peers the whole ring is returned, starting
    at the primary and wrapping around. *)
Example getNodes_whole_ring :
  ring.getNodes "key1" 5 (ringRun [RingAdd node1; RingAdd node2; RingAdd node3])
  = Returns [Some (newCacheNode node3); Some (newCacheNode node1);
             Some (newCacheNode node2)].
Proof. vm_compute. reflexivity. Qed.

(** ** The registry and the ring underneath *)

Lemma collisionFree_inj (ids : list string) (a b : string) :
  collisionFree ids → a ∈ ids → b ∈ ids → hashOf a = hashOf b → a = b.
Proof.
  unfold collisionFree. rewrite Forall_forall. intros Hcf Ha Hb.
  specialize (Hcf a Ha). rewrite Forall_forall in Hcf. by apply Hcf.
Qed.

Lemma elem_of_mapIDs (r : hashRing) (id : string) :
  id ∈ mapIDs r ↔ ∃ h cn, nodeMap r !! h = Some cn ∧ ID (info cn) = id.
Proof.
  unfold mapIDs. rewrite elem_of_list_to_set, list_elem_of_fmap. split.
  - intros ([h cn] & -> & Hin%elem_of_map_to_list). by exists h, cn.
  - intros (h & cn & Hlk & <-). exists (h, cn). split; [done|].
    by apply elem_of_map_to_list.
Qed.

Lemma elem_of_listIDs (r : hashRing) (id : string) :
  id ∈ listIDs r ↔ ∃ cn, cn ∈ nodes r ∧ ID (info cn) = id.
Proof.
  unfold listIDs. rewrite elem_of_list_to_set, list_elem_of_fmap. naive_solver.
Qed.

Lemma dropID_elem_of (nodeID : string) (s : list cacheNode) (cn : cacheNode) :
  cn ∈ ring.dropID nodeID s → cn ∈ s.
Proof.
  induction s as [|n s IH]; simpl; [done|].
  case_decide; rewrite ?elem_of_cons; naive_solver.
Qed.

Lemma dropID_ids (nodeID : string) (s : list cacheNode) (id : string) :
  NoDup ((λ n, ID (info n)) <$> s) →
  id ∈ (λ n, ID (info n)) <$> ring.dropID nodeID s
  ↔ id ∈ (λ n, ID (info n)) <$> s ∧ id ≠ nodeID.
Proof.
  induction s as [|n s IH]; simpl; intros Hnd.
  - split; [by intros ?%elem_of_nil|by intros [?%elem_of_nil _]].
  - apply NoDup_cons in Hnd as [Hn Hnd]. case_decide as Heq.
    + subst. rewrite elem_of_cons. split; [|naive_solver].
      intros Hin. split; [by right|]. by intros ->.
    + rewrite fmap_cons, !elem_of_cons, IH by done. naive_solver.
Qed.

Lemma dropID_NoDup (nodeID : string) (s : list cacheNode) :
  NoDup ((λ n, ID (info n)) <$> s) →
  NoDup ((λ n, ID (info n)) <$> ring.dropID nodeID s).
Proof.
  induction s as [|n s IH]; simpl; intros Hnd; [done|].
  apply NoDup_cons in Hnd as [Hn Hnd]. case_decide; [done|].
  rewrite fmap_cons. apply NoDup_cons. split; [|by apply IH].
  rewrite dropID_ids by done. tauto.
Qed.

Lemma cacheInv_new (U : list string) (red : Z) :
  cacheInv U (cache.newDistributedCache red).
Proof.
  split; simpl.
  - apply ringInv_new.
  - intros id [? Hid]. by rewrite lookup_empty in Hid.
  - intros id. rewrite lookup_empty. split; [by intros [? ?]|].
    intros (cn & Hcn & _). by rewrite lookup_empty in Hcn.
  - intros id. rewrite lookup_empty. split; [by intros [? ?]|by intros ?%elem_of_nil].
  - constructor.
Qed.

(** Under the invariant, the occupant of the slot of a known ID is that
    very ID. *)
Lemma cacheInv_slot (U : list string) (c : distributedCache) (id : string)
    (cn : cacheNode) :
  collisionFree U → cacheInv U c → id ∈ U →
  nodeMap (hring c) !! hashOf id = Some cn → ID (info cn) = id.
Proof.
  intros Hcf [Hr Hknown Hmap Hlist Hnd] Hid Hcn.
  pose proof (inv_hash _ Hr _ _ Hcn) as Hh.
  eapply collisionFree_inj; [done| |done|done].
  apply Hknown, Hmap. exists cn. by rewrite Hh.
Qed.

Lemma cacheInv_addNode (U : list string) (node : nodeInfo) (now : Z)
    (c : distributedCache) :
  collisionFree U → ID node ∈ U → cacheInv U c →
  cacheInv U (cache.addNode node now c).
Proof.
  intros Hcf Hid Hinv. pose proof Hinv as [Hr Hknown Hmap Hlist Hnd].
  unfold cache.addNode.
  destruct (nodeHB c !! ID node) as [t|] eqn:Hhb.
  - split; simpl; [done|..|done].
    + intros id. rewrite lookup_insert. case_decide; subst; eauto.
    + intros id. rewrite <- Hmap, lookup_insert.
      case_decide; subst; [|done]. rewrite Hhb. split; eauto.
    + intros id. rewrite <- Hlist, lookup_insert.
      case_decide; subst; [|done]. rewrite Hhb. split; eauto.
  - assert (nodeMap (hring c) !! hashOf (ID node) = None) as Hfree.
    { destruct (nodeMap (hring c) !! hashOf (ID node)) as [cn|] eqn:Hcn; [|done].
      assert (is_Some (nodeHB c !! ID node)) as [? ?]; [|congruence].
      apply Hmap. exists cn. split; [done|]. by eapply cacheInv_slot. }
    unfold ring.addNode. rewrite Hfree.
    split; simpl.
    + pose proof (ringInv_addNode node _ Hr) as Hr'.
      unfold ring.addNode in Hr'. by rewrite Hfree in Hr'.
    + intros id. rewrite lookup_insert. case_decide; subst; eauto.
    + intros id. rewrite lookup_insert. case_decide as Heq.
      * subst. rewrite lookup_insert_eq. split; [|eauto]. intros _. by eexists.
      * rewrite Hmap. destruct (decide (hashOf (ID node) = hashOf id)) as [Hh|Hh].
        -- rewrite <- Hh, Hfree, lookup_insert_eq. split.
           ++ by intros (? & ? & _).
           ++ intros (cn & [= <-] & Hcn). simpl in Hcn. done.
        -- by rewrite lookup_insert_ne.
    + intros id. rewrite fmap_app, elem_of_app, <- Hlist, lookup_insert. simpl.
      rewrite list_elem_of_singleton. case_decide; subst.
      * split; eauto.
      * naive_solver.
    + rewrite fmap_app. apply NoDup_app. split_and!; [done| |apply NoDup_singleton].
      simpl. intros id Hin ->%list_elem_of_singleton.
      apply Hlist in Hin as [? ?]. congruence.
Qed.

Lemma cacheInv_removeNode (U : list string) (nodeID : string)
    (c : distributedCache) :
  collisionFree U → nodeID ∈ U → cacheInv U c →
  cacheInv U (cache.removeNode_unlocked nodeID c).
Proof.
  intros Hcf Hid Hinv. pose proof Hinv as [Hr Hknown Hmap Hlist Hnd].
  unfold cache.removeNode_unlocked, ring.removeNode.
  destruct (nodeMap (hring c) !! hashOf nodeID) as [cn|] eqn:Hcn.
  - pose proof (cacheInv_slot U c nodeID cn Hcf Hinv Hid Hcn) as Hsame.
    split; simpl.
    + pose proof (ringInv_removeNode nodeID _ Hr) as Hr'.
      unfold ring.removeNode in Hr'. by rewrite Hcn in Hr'.
    + intros id. rewrite lookup_delete. case_decide; [by intros [? ?]|eauto].
    + intros id. rewrite lookup_delete. case_decide as Heq.
      * subst id. rewrite lookup_delete_eq. split; [by intros [? ?]|].
        by intros (? & ? & _).
      * destruct (decide (hashOf nodeID = hashOf id)) as [Hh|Hh].
        -- rewrite <- Hh, lookup_delete_eq. split; [|by intros (? & ? & _)].
           intros Hsome. exfalso. apply Heq.
           eapply collisionFree_inj; [done..|by apply Hknown|done].
        -- by rewrite lookup_delete_ne, Hmap.
    + intros id. rewrite dropID_ids by done. rewrite <- Hlist, lookup_delete.
      case_decide; subst; [|naive_solver].
      split; [by intros [? ?]|naive_solver].
    + by apply dropID_NoDup.
  - assert (nodeHB c !! nodeID = None) as Hhb.
    { destruct (nodeHB c !! nodeID) as [t|] eqn:Hhb; [|done].
      destruct (proj1 (Hmap nodeID)) as (cn & Hcn' & _); [by eexists|congruence]. }
    rewrite delete_id by done. by destruct c.
Qed.

Lemma cacheInv_foldl (U : list string) (ops : list cacheOp)
    (c : distributedCache) :
  collisionFree U → (∀ op, op ∈ ops → opID op ∈ U) →
  cacheInv U c → cacheInv U (foldl cacheStep c ops).
Proof.
  intros Hcf. revert c. induction ops as [|op ops IH]; simpl; [done|].
  intros c Hops Hinv. apply IH; [set_solver|].
  assert (opID op ∈ U) as Hop by (apply Hops; set_solver).
  destruct op; simpl in *;
    [by apply cacheInv_addNode|by apply cacheInv_removeNode].
Qed.

Lemma cacheInv_ids (U : list string) (c : distributedCache) :
  cacheInv U c →
  dom (nodeHB c) = mapIDs (hring c) ∧ dom (nodeHB c) = listIDs (hring c).
Proof.
  intros [Hr Hknown Hmap Hlist Hnd]. split; apply set_eq; intros id.
  - rewrite elem_of_dom, elem_of_mapIDs, Hmap. split; [naive_solver|].
    intros (h & cn & Hcn & Hid). exists cn. split; [|done].
    by rewrite <- Hid, (inv_hash _ Hr _ _ Hcn).
  - rewrite elem_of_dom, Hlist. unfold listIDs. by rewrite elem_of_list_to_set.
Qed.

Lemma cacheInv_run (red : Z) (ops : list cacheOp) :
  collisionFree (opID <$> ops) → cacheInv (opID <$> ops) (cacheRun red ops).
Proof.
  intros Hcf. apply cacheInv_foldl; [done| |apply cacheInv_new].
  intros op Hop. by apply list_elem_of_fmap_2.
Qed.

(** C2, as far as it holds. In every state reached by [addNode] and
    [removeNode_unlocked] from the empty cache, the keys of [nodeHB] are
    the IDs of the nodes in the ring (in its map and in its list),
    provided no two IDs that occur in the history have the same CRC-32. *)
Theorem registry_keys_are_ring_ids (red : Z) (ops : list cacheOp) :
  collisionFree (opID <$> ops) →
  dom (nodeHB (cacheRun red ops)) = mapIDs (hring (cacheRun red ops)) ∧
  dom (nodeHB (cacheRun red ops)) = listIDs (hring (cacheRun red ops)).
Proof. intros Hcf. eapply cacheInv_ids. by apply cacheInv_run. Qed.

Lemma registry_keys_are_ring_ids_witness :
  dom (nodeHB (cacheRun 1 [CacheAdd node1 0; CacheAdd node2 5;
                           CacheAdd node3 7; CacheRemove "node2";
                           CacheAdd node1 9]))
  = mapIDs (hring (cacheRun 1 [CacheAdd node1 0; CacheAdd node2 5;
                               CacheAdd node3 7; CacheRemove "node2";
                               CacheAdd node1 9])) ∧
  dom (nodeHB (cacheRun 1 [CacheAdd node1 0; CacheAdd node2 5;
                           CacheAdd node3 7; CacheRemove "node2";
                           CacheAdd node1 9]))
  = listIDs (hring (cacheRun 1 [CacheAdd node1 0; CacheAdd node2 5;
                                CacheAdd node3 7; CacheRemove "node2";
                                CacheAdd node1 9])).
Proof.
  apply (registry_keys_are_ring_ids 1
           [CacheAdd node1 0; CacheAdd node2 5; CacheAdd node3 7;
            CacheRemove "node2"; CacheAdd node1 9]).
  apply (@bool_decide_unpack _ (collisionFree_dec _)). vm_compute. exact I.
Defined.

(** C2 as stated fails: "plumless" and "buckeroo" have the same CRC-32.
    Once both have sent a heartbeat the registry knows both, the ring
    holds the first one only. *)
Lemma registry_keys_differ_under_collision :
  ¬ (dom (nodeHB (cacheRun 0 [CacheAdd plumless 0; CacheAdd buckeroo 1]))
     = mapIDs (hring (cacheRun 0 [CacheAdd plumless 0; CacheAdd buckeroo 1]))) ∧
  ¬ (dom (nodeHB (cacheRun 0 [CacheAdd plumless 0; CacheAdd buckeroo 1]))
     = listIDs (hring (cacheRun 0 [CacheAdd plumless 0; CacheAdd buckeroo 1]))).
Proof.
  assert ("buckeroo"
          ∈ dom (nodeHB (cacheRun 0 [CacheAdd plumless 0; CacheAdd buckeroo 1])))
    as Hin.
  { apply elem_of_dom. vm_compute. eexists. reflexivity. }
  split; intros Heq; rewrite Heq in Hin; clear Heq.
  - apply elem_of_mapIDs in Hin as (h & cn & Hlk & Hid).
    assert (nodeMap (hring (cacheRun 0 [CacheAdd plumless 0; CacheAdd buckeroo 1]))
            = {[hashOf "plumless" := newCacheNode plumless]}) as Hmap.
    { vm_compute. reflexivity. }
    rewrite Hmap in Hlk. apply lookup_singleton_Some in Hlk as [_ <-].
    discriminate Hid.
  - apply elem_of_listIDs in Hin as (cn & Hcn & Hid).
    assert (nodes (hring (cacheRun 0 [CacheAdd plumless 0; CacheAdd buckeroo 1]))
            = [newCacheNode plumless]) as Hnodes.
    { vm_compute. reflexivity. }
    rewrite Hnodes in Hcn. apply list_elem_of_singleton in Hcn as ->.
    discriminate Hid.
Qed.

(** ** The monitor sweep *)

Lemma Sub_stale (now lastSeen : Z) :
  discovery.monitorInterval < discovery.Sub now lastSeen ↔ stale now lastSeen.
Proof.
  unfold stale, discovery.Sub, discovery.maxDuration, discovery.minDuration,
    discovery.monitorInterval, discovery.Second.
  change (2 ^ 63) with 9223372036854775808. lia.
Qed.

Lemma expired_true (myNodeID : string) (now : Z) (m : gmap string Z)
    (id : string) :
  expired myNodeID now m id = true
  ↔ id ≠ myNodeID ∧ ∃ lastSeen, m !! id = Some lastSeen ∧ stale now lastSeen.
Proof.
  unfold expired. destruct (m !! id) as [t|].
  - rewrite andb_true_iff, !bool_decide_eq_true, Sub_stale. naive_solver.
  - naive_solver.
Qed.

Lemma sweepOne_expired (myNodeID : string) (now : Z) (c : distributedCache)
    (id : string) :
  discovery.sweepOne myNodeID now c id
  = if expired myNodeID now (nodeHB c) id
    then cache.removeNode_unlocked id c else c.
Proof.
  unfold discovery.sweepOne, expired.
  destruct (nodeHB c !! id) as [t|]; [|done].
  case_decide; simpl; [|by rewrite bool_decide_eq_false_2 by naive_solver].
  rewrite bool_decide_eq_true_2 by done. simpl.
  case_decide; [by rewrite bool_decide_eq_true_2|by rewrite bool_decide_eq_false_2].
Qed.

Lemma filter_ext_elem_of {A} (P Q : A → Prop) `{∀ x, Decision (P x)}
    `{∀ x, Decision (Q x)} (l : list A) :
  (∀ x, x ∈ l → P x ↔ Q x) → filter P l = filter Q l.
Proof.
  induction l as [|x l IH]; intros Hext; [done|].
  rewrite !filter_cons.
  assert (P x ↔ Q x) as Hx by (apply Hext; set_solver).
  rewrite IH by (intros y Hy; apply Hext; set_solver).
  repeat case_decide; tauto || done.
Qed.

(** A sweep is the removal, one after the other, of the entries that
    were expired when it started. *)
Lemma sweep_removals (myNodeID : string) (now : Z) (order : list string)
    (c : distributedCache) :
  NoDup order →
  discovery.sweep myNodeID now order c
  = foldl cacheStep c (CacheRemove <$> victims myNodeID now (nodeHB c) order).
Proof.
  unfold discovery.sweep, victims. revert c.
  induction order as [|id order IH]; intros c Hnd; [done|].
  apply NoDup_cons in Hnd as [Hid Hnd]. cbn [foldl].
  rewrite IH by done. rewrite filter_cons, sweepOne_expired.
  destruct (expired myNodeID now (nodeHB c) id) eqn:Hexp.
  - rewrite decide_True by done. cbn [fmap list_fmap foldl cacheStep].
    do 2 f_equal. apply filter_ext_elem_of. intros id' Hin.
    unfold expired. simpl. rewrite lookup_delete_ne; [done|]. by intros ->.
  - by rewrite decide_False by congruence.
Qed.

Lemma rangeOrder_NoDup (m : gmap string Z) (order : list string) :
  discovery.rangeOrder m order → NoDup order.
Proof.
  unfold discovery.rangeOrder. intros ->. apply NoDup_fst_map_to_list.
Qed.

Lemma rangeOrder_elem_of (m : gmap string Z) (order : list string)
    (id : string) (t : Z) :
  discovery.rangeOrder m order → m !! id = Some t → id ∈ order.
Proof.
  unfold discovery.rangeOrder. intros -> Hid.
  apply list_elem_of_fmap. exists (id, t). split; [done|].
  by apply elem_of_map_to_list.
Qed.

Lemma removeNode_nodeMap (nodeID : string) (r : hashRing) :
  nodeMap (ring.removeNode nodeID r) = delete (hashOf nodeID) (nodeMap r).
Proof.
  unfold ring.removeNode.
  destruct (nodeMap r !! hashOf nodeID) eqn:Hlk; [done|].
  by rewrite delete_id.
Qed.

Lemma removals_nodeHB (ids : list string) (c : distributedCache) (id : string) :
  nodeHB (foldl cacheStep c (CacheRemove <$> ids)) !! id
  = if decide (id ∈ ids) then None else nodeHB c !! id.
Proof.
  revert c. induction ids as [|x ids IH]; intros c;
    cbn [fmap list_fmap foldl cacheStep].
  - by rewrite decide_False by by intros ?%elem_of_nil.
  - change (list_fmap _ _ CacheRemove ids) with (CacheRemove <$> ids).
    rewrite IH. cbn [cache.removeNode_unlocked nodeHB]. rewrite lookup_delete.
    destruct (decide (id ∈ ids)) as [Hin|Hin].
    + by rewrite decide_True by by right.
    + case_decide; subst.
      * by rewrite decide_True by by left.
      * rewrite decide_False; [done|]. rewrite elem_of_cons. naive_solver.
Qed.

Lemma removals_nodeMap (ids : list string) (c : distributedCache) (h : Z) :
  nodeMap (hring (foldl cacheStep c (CacheRemove <$> ids))) !! h
  = if decide (h ∈ hashOf <$> ids) then None else nodeMap (hring c) !! h.
Proof.
  revert c. induction ids as [|x ids IH]; intros c;
    cbn [fmap list_fmap foldl cacheStep].
  - by rewrite decide_False by by intros ?%elem_of_nil.
  - change (list_fmap _ _ CacheRemove ids) with (CacheRemove <$> ids).
    change (list_fmap _ _ hashOf ids) with (hashOf <$> ids).
    rewrite IH. cbn [cache.removeNode_unlocked hring].
    rewrite removeNode_nodeMap, lookup_delete.
    destruct (decide (h ∈ hashOf <$> ids)) as [Hin|Hin].
    + by rewrite decide_True by by right.
    + case_decide; subst.
      * by rewrite decide_True by by left.
      * rewrite decide_False; [done|]. rewrite elem_of_cons. naive_solver.
Qed.

Lemma cache_ringInv_step (c : distributedCache) (op : cacheOp) :
  ringInv (hring c) → ringInv (hring (cacheStep c op)).
Proof.
  intros Hr. destruct op as [node now|nodeID]; simpl.
  - destruct (nodeHB c !! ID node); [done|by apply ringInv_addNode].
  - by apply ringInv_removeNode.
Qed.

Lemma cache_ringInv_foldl (ops : list cacheOp) (c : distributedCache) :
  ringInv (hring c) → ringInv (hring (foldl cacheStep c ops)).
Proof.
  revert c. induction ops as [|op ops IH]; simpl; [done|].
  intros c Hr. by apply IH, cache_ringInv_step.
Qed.

Lemma cache_ringInv_run (red : Z) (ops : list cacheOp) :
  ringInv (hring (cacheRun red ops)).
Proof. apply cache_ringInv_foldl, ringInv_new. Qed.

(** C7, as far as it holds. After one monitor sweep at time [now], every
    peer other than the local node whose entry is older than
    [now - monitorInterval] is gone from the registry and from the ring's
    map and hash sequence (and from the ring's node list when no two IDs
    of the history collide); the local node keeps its registry entry, and
    it keeps its ring entry provided no expired peer has the CRC-32 of the
    local ID. *)
Theorem sweep_expires_stale_peers (red : Z) (ops : list cacheOp)
    (myNodeID : string) (now : Z) (order : list string) :
  discovery.rangeOrder (nodeHB (cacheRun red ops)) order →
  (∀ id lastSeen,
     id ≠ myNodeID → nodeHB (cacheRun red ops) !! id = Some lastSeen →
     stale now lastSeen →
     nodeHB (discovery.sweep myNodeID now order (cacheRun red ops)) !! id = None ∧
     (id ∉ mapIDs (hring (discovery.sweep myNodeID now order (cacheRun red ops)))) ∧
     (hashOf id
       ∉ sortedHashes (hring (discovery.sweep myNodeID now order (cacheRun red ops)))) ∧
     (collisionFree (opID <$> ops) →
      id ∉ listIDs (hring (discovery.sweep myNodeID now order (cacheRun red ops))))) ∧
  nodeHB (discovery.sweep myNodeID now order (cacheRun red ops)) !! myNodeID
  = nodeHB (cacheRun red ops) !! myNodeID ∧
  ((∀ id lastSeen,
      id ≠ myNodeID → nodeHB (cacheRun red ops) !! id = Some lastSeen →
      stale now lastSeen → hashOf id ≠ hashOf myNodeID) →
   keepsOwnRingEntry myNodeID (cacheRun red ops)
     (discovery.sweep myNodeID now order (cacheRun red ops))).
Proof.
  intros Horder. set (c := cacheRun red ops) in *.
  rewrite (sweep_removals myNodeID now order c)
    by by eapply rangeOrder_NoDup.
  set (vs := victims myNodeID now (nodeHB c) order).
  set (c' := foldl cacheStep c (CacheRemove <$> vs)).
  assert (∀ id, id ∈ vs ↔
            id ≠ myNodeID ∧ ∃ t, nodeHB c !! id = Some t ∧ stale now t) as Hvs.
  { intros id. unfold vs, victims. rewrite list_elem_of_filter, expired_true.
    split; [tauto|]. intros (Hne & t & Hid & Hst). split; [eauto|].
    by eapply rangeOrder_elem_of. }
  assert (ringInv (hring c')) as Hr'.
  { apply cache_ringInv_foldl, cache_ringInv_run. }
  split_and!.
  - intros id t Hne Hid Hst.
    assert (id ∈ vs) as Hin by (apply Hvs; eauto).
    assert (nodeMap (hring c') !! hashOf id = None) as Hgone.
    { unfold c'. rewrite removals_nodeMap, decide_True; [done|].
      by apply list_elem_of_fmap_2. }
    split_and!.
    + unfold c'. by rewrite removals_nodeHB, decide_True.
    + rewrite elem_of_mapIDs. intros (h & cn & Hcn & Hcid).
      pose proof (inv_hash _ Hr' _ _ Hcn) as Hh. rewrite Hcid in Hh.
      congruence.
    + rewrite (inv_keys _ Hr'), Hgone. by intros [? ?].
    + intros Hcf.
      assert (cacheInv (opID <$> ops) c') as Hinv'.
      { pose proof (cacheInv_run red ops Hcf) as Hinv.
        apply cacheInv_foldl; [done| |done].
        intros op (v & -> & Hv)%list_elem_of_fmap. simpl.
        apply Hvs in Hv as (_ & tv & Hvt & _).
        apply (cinv_known _ _ Hinv). by eexists. }
      destruct (cacheInv_ids _ _ Hinv') as [_ <-].
      rewrite elem_of_dom. unfold c'.
      rewrite removals_nodeHB, decide_True by done. by intros [? ?].
  - unfold c'. rewrite removals_nodeHB, decide_False; [done|].
    rewrite Hvs. tauto.
  - intros Hfree cn [Hcn Hid]. split; [|done].
    unfold c'. rewrite removals_nodeMap, decide_False; [done|].
    intros (v & Hh & Hv)%list_elem_of_fmap.
    apply Hvs in Hv as (Hne & t & Hvt & Hst).
    by eapply Hfree.
Qed.

Example sweep_sample :
  nodeHB (discovery.sweep "node1" 20000000000 ["node3"; "node2"; "node1"]
            (cacheRun 1 [CacheAdd node1 0; CacheAdd node2 0;
                         CacheAdd node3 15000000000]))
  = {["node1" := 0; "node3" := 15000000000]} ∧
  sortedHashes
    (hring (discovery.sweep "node1" 20000000000 ["node3"; "node2"; "node1"]
              (cacheRun 1 [CacheAdd node1 0; CacheAdd node2 0;
                           CacheAdd node3 15000000000])))
  = [hashOf "node3"; hashOf "node1"].
Proof. vm_compute. split; reflexivity. Qed.

Lemma sweep_expires_stale_peers_witness :
  discovery.rangeOrder (nodeHB (cacheRun 1 threePeers)) ["node3"; "node1"; "node2"] ∧
  (nodeHB (discovery.sweep "node1" 20000000000 ["node3"; "node1"; "node2"]
             (cacheRun 1 threePeers)) !! "node2" = None ∧
   ("node2" ∉ mapIDs (hring (discovery.sweep "node1" 20000000000
                               ["node3"; "node1"; "node2"]
                               (cacheRun 1 threePeers)))) ∧
   ("node2" ∉ listIDs (hring (discovery.sweep "node1" 20000000000
                                ["node3"; "node1"; "node2"]
                                (cacheRun 1 threePeers))))) ∧
  nodeHB (discovery.sweep "node1" 20000000000 ["node3"; "node1"; "node2"]
            (cacheRun 1 threePeers)) !! "node1"
  = nodeHB (cacheRun 1 threePeers) !! "node1" ∧
  keepsOwnRingEntry "node1" (cacheRun 1 threePeers)
    (discovery.sweep "node1" 20000000000 ["node3"; "node1"; "node2"]
       (cacheRun 1 threePeers)).
Proof.
  assert (discovery.rangeOrder (nodeHB (cacheRun 1 threePeers))
            ["node3"; "node1"; "node2"]) as Hrange.
  { unfold discovery.rangeOrder. vm_compute. reflexivity. }
  destruct (sweep_expires_stale_peers 1 threePeers "node1" 20000000000
              ["node3"; "node1"; "node2"] Hrange) as (Hstale & Hself & Hkeep).
  split; [exact Hrange|]. split; [|split; [exact Hself|]].
  - destruct (Hstale "node2" 0) as (H1 & H2 & _ & H4).
    + discriminate.
    + vm_compute. reflexivity.
    + unfold stale. vm_compute. reflexivity.
    + split; [exact H1|]. split; [exact H2|]. apply H4.
      apply (@bool_decide_unpack _ (collisionFree_dec _)). vm_compute. exact I.
  - apply Hkeep. intros id t Hne Hlk Hst Hh.
    apply elem_of_map_to_list in Hlk.
    assert (map_to_list (nodeHB (cacheRun 1 threePeers))
            = [("node3", 15000000000); ("node1", 0); ("node2", 0)]) as Hl.
    { vm_compute. reflexivity. }
    rewrite Hl in Hlk.
    repeat (apply elem_of_cons in Hlk as [Hlk|Hlk]);
      [injection Hlk as -> ->; vm_compute in Hh; discriminate Hh
      |injection Hlk as -> ->; by apply Hne
      |injection Hlk as -> ->; vm_compute in Hh; discriminate Hh
      |by apply elem_of_nil in Hlk].
Defined.

(** C7 as stated fails when an expired peer has the CRC-32 of the local
    ID: the monitor of "plumless" expires "buckeroo", and [removeNode]
    drops the slot of that hash, which is the local node's. *)
Lemma sweep_drops_own_entry_under_collision :
  discovery.rangeOrder (nodeHB (cacheRun 0 twins)) ["buckeroo"; "plumless"] ∧
  ¬ sweepExpiresOthersOnly "plumless" 20000000000 (cacheRun 0 twins)
      (discovery.sweep "plumless" 20000000000 ["buckeroo"; "plumless"]
         (cacheRun 0 twins)).
Proof.
  split.
  - unfold discovery.rangeOrder. vm_compute. reflexivity.
  - intros (_ & _ & Hkeep).
    destruct (Hkeep (newCacheNode plumless)) as [Hlk _].
    + split; [vm_compute; reflexivity|reflexivity].
    + vm_compute in Hlk. discriminate Hlk.
Qed.

(** The state of that sweep is the one "plumless" is in after [Start]
    and one heartbeat of "buckeroo". *)
Example twins_by_heartbeat :
  discovery.receiveHeartbeats "plumless" "A"
    [(0, discovery.Object (Some "buckeroo") (Some "10.0.0.2") (Some "8081")
           (Some "B") false)]
    (Start plumless 0 0)
  = cacheRun 0 twins.
Proof. vm_compute. reflexivity. Qed.

(** After that sweep the ring is empty, so any lookup of the local node
    panics. *)
Example sweep_empties_ring_of_twins :
  ring.getNode "key1"
    (hring (discovery.sweep "plumless" 20000000000 ["buckeroo"; "plumless"]
              (cacheRun 0 twins)))
  = Panics ∧
  nodeHB (discovery.sweep "plumless" 20000000000 ["buckeroo"; "plumless"]
            (cacheRun 0 twins))
  = {["plumless" := 0]}.
Proof. vm_compute. split; reflexivity. Qed.

(** The list [ring.nodes] can keep a peer whose slot went with a colliding
    ID: "buckeroo" expires first and takes the slot of "plumless" with it;
    when "plumless" expires in turn, [removeNode] finds no slot and
    returns before it reaches the list. *)
Example sweep_leaves_node_in_list :
  nodeHB (discovery.sweep "node1" 20000000000 ["plumless"; "node1"]
            (cacheRun 0 [CacheAdd node1 15000000000; CacheAdd plumless 0;
                         CacheAdd buckeroo 0; CacheRemove "buckeroo"]))
    !! "plumless" = None ∧
  (λ n, ID (info n)) <$>
    nodes (hring (discovery.sweep "node1" 20000000000 ["plumless"; "node1"]
                    (cacheRun 0 [CacheAdd node1 15000000000; CacheAdd plumless 0;
                                 CacheAdd buckeroo 0; CacheRemove "buckeroo"])))
  = ["node1"; "plumless"].
Proof. vm_compute. split; reflexivity. Qed.

(** ** The receiver's group filter *)

(** What the receiver does with a heartbeat that parses and is not the
    node's own: it calls [cache.addNode] exactly when the group of the
    heartbeat is not the local group. *)
Lemma receiveOne_group_filter (myNodeID myGroupID : string) (now : Z)
    (p : discovery.packet) (st : discovery.receiver) (n : nodeInfo) :
  p ≠ discovery.ReadError →
  discovery.Unmarshal p (discovery.node st) = (n, false) →
  ID n ≠ myNodeID →
  discovery.receiveOne myNodeID myGroupID now p st
  = if decide (GroupID n = myGroupID)
    then ({| discovery.node := n; discovery.rcache := discovery.rcache st |},
          discovery.Ignored)
    else ({| discovery.node := n;
             discovery.rcache := cache.addNode n now (discovery.rcache st) |},
          discovery.Accepted n).
Proof.
  intros Hp Hparse Hid. unfold discovery.receiveOne.
  destruct p as [| |i a pt g mistyped]; [done| |]; rewrite Hparse;
    rewrite decide_False by done; by case_decide.
Qed.

(** C1 on the code. The local node is "node1" of group "A". A heartbeat
    of "node2", group "A", is ignored and leaves the cache as it was; a
    heartbeat of "node9", group "B", is taken in and enters the registry
    and the ring. The claim asks for the opposite in both cases. *)
Theorem receiver_drops_same_group_heartbeat :
  discovery.receiveOne "node1" "A" 5
    (discovery.Object (Some "node2") (Some "127.0.0.1") (Some "8082")
                      (Some "A") false)
    {| discovery.node := mkNode "" "" "" "";
       discovery.rcache := cacheRun 1 [CacheAdd node1 0] |}
  = ({| discovery.node := node2;
        discovery.rcache := cacheRun 1 [CacheAdd node1 0] |},
     discovery.Ignored) ∧
  discovery.receiveOne "node1" "A" 5
    (discovery.Object (Some "node9") (Some "127.0.0.1") (Some "8089")
                      (Some "B") false)
    {| discovery.node := mkNode "" "" "" "";
       discovery.rcache := cacheRun 1 [CacheAdd node1 0] |}
  = ({| discovery.node := mkNode "node9" "127.0.0.1" "8089" "B";
        discovery.rcache :=
          cacheRun 1 [CacheAdd node1 0;
                      CacheAdd (mkNode "node9" "127.0.0.1" "8089" "B") 5] |},
     discovery.Accepted (mkNode "node9" "127.0.0.1" "8089" "B")).
Proof. split; reflexivity. Qed.

(** The same through the whole receiver loop: after heartbeats of a peer
    of the own group and of a peer of another group, only the foreign
    peer is in the registry. *)
Example receiver_loop_sample :
  dom (nodeHB (discovery.receiveHeartbeats "node1" "A"
                 [(5, discovery.Object (Some "node2") (Some "127.0.0.1")
                        (Some "8082") (Some "A") false);
                  (6, discovery.Object (Some "node9") (Some "127.0.0.1")
                        (Some "8089") (Some "B") false)]
                 (cacheRun 1 [CacheAdd node1 0])))
  = {["node1"; "node9"]}.
Proof. vm_compute. reflexivity. Qed.

(** ** The dispatcher *)

Lemma cacheRun_redundancy (red : Z) (ops : list cacheOp) :
  redundancy (cacheRun red ops) = red.
Proof.
  unfold cacheRun.
  assert (∀ c, redundancy (foldl cacheStep c ops) = redundancy c) as H.
  { induction ops as [|op ops IH]; intros c; simpl; [done|].
    rewrite IH. by destruct op. }
  by rewrite H.
Qed.

(** On a non-empty ring [getNodes] returns nodes, never nil pointers. *)
Lemma getNodes_all_nodes (r : hashRing) (key : string) (red : Z) :
  ringInv r → sortedHashes r ≠ [] →
  ∃ l, ring.getNodes key red r = Returns l ∧ l ≠ [] ∧ Forall is_Some l.
Proof.
  intros Hinv Hne.
  destruct (getNodes_clockwise r key red (inv_sorted _ Hinv) Hne)
    as (p & _ & _ & _ & ->).
  eexists. split; [done|]. split; [done|].
  apply Forall_fmap, Forall_forall. intros i _. by apply clockwise_is_Some.
Qed.

Lemma rankedPosts_cons (key : string) (value : list Byte.byte) (i0 : nat)
    (p : option cacheNode) (nodes : list (option cacheNode)) :
  rankedPosts key value i0 (p :: nodes)
  = match rankedPost key value i0 p with
    | Some r => r :: rankedPosts key value (S i0) nodes
    | None => rankedPosts key value (S i0) nodes
    end.
Proof.
  unfold rankedPosts. rewrite imap_cons. cbn [omap list_omap].
  rewrite Nat.add_0_r.
  assert (imap ((λ i, rankedPost key value (i0 + i)) ∘ S) nodes
          = imap (λ i, rankedPost key value (S i0 + i)) nodes) as ->.
  { apply imap_ext. intros i x _. simpl. f_equal. lia. }
  by destruct (rankedPost key value i0 p).
Qed.

Section DispatcherFacts.

Context {World : Type}.
Variable parses : URL → bool.
Variable roundTrip : request → World → World * (error + response).

(** The loop of [set] over replicas that are all there: it does not
    panic, it tries a prefix of the replicas, and the requests it hands
    to the client are the ranked POSTs of that prefix whose URL parses. *)
Lemma setLoop_sent (key : string) (value : list Byte.byte)
    (nodes : list (option cacheNode)) (i0 : nat) (err : option error)
    (s : net World) :
  Forall is_Some nodes →
  ∃ k e s',
    setLoop parses roundTrip key value (Z.of_nat i0) nodes err s
    = Returns (e, s') ∧
    (k ≤ length nodes)%nat ∧
    sent s' = sent s ++ filter (λ r, parses (Target r) = true)
                          (rankedPosts key value i0 (take k nodes)).
Proof.
  intros Hall. revert i0 err s.
  induction Hall as [|p nodes [cn ->] Hall IH]; intros i0 err s.
  - exists 0%nat, err, s. split_and!; [done|simpl; lia|].
    by rewrite app_nil_r.
  - cbn [setLoop]. unfold dbind at 1, deref, lift.
    unfold dbind at 1, setToNode, dbind at 1, Post, NewRequest.
    cbn [createURLForSet].
    destruct (parses _) eqn:Hparse.
    + unfold Do.
      destruct (roundTrip _ (world s)) as [w [e|resp]] eqn:Hrt; cbn [dret].
      * replace (Z.of_nat i0 + 1) with (Z.of_nat (S i0)) by lia.
        destruct (IH (S i0) (Some e) {| world := w; sent := sent s ++ [
          {| Method := MethodPost;
             Target := {| host := IP (info cn); port := Port (info cn);
                          q_id := ID (info cn); q_key := None;
                          q_copy := Some (Z.of_nat i0 - 1) |};
             Body := Some {[key := value]} |}] |})
          as (k & e' & s' & Hrun & Hk & Hsent).
        exists (S k), e', s'. split_and!; [done|simpl; lia|].
        rewrite Hsent. cbn [sent take]. rewrite rankedPosts_cons.
        cbn [rankedPost mbind option_bind].
        rewrite filter_cons, decide_True by done.
        by rewrite <- app_assoc.
      * exists 1%nat. eexists _, _. split_and!; [done|simpl; lia|].
        cbn [sent take]. rewrite take_0, rankedPosts_cons.
        cbn [rankedPost mbind option_bind].
        by rewrite filter_cons, decide_True by done.
    + cbn [dret].
      replace (Z.of_nat i0 + 1) with (Z.of_nat (S i0)) by lia.
      destruct (IH (S i0) (Some (Err "parse error")) s)
        as (k & e' & s' & Hrun & Hk & Hsent).
      exists (S k), e', s'. split_and!; [done|simpl; lia|].
      rewrite Hsent. cbn [take]. rewrite rankedPosts_cons.
      cbn [rankedPost mbind option_bind].
      by rewrite filter_cons, decide_False
        by (simpl; unfold createURLForSet in Hparse; rewrite Hparse; done).
Qed.

End DispatcherFacts.

Lemma rankedPosts_elem_of (key : string) (value : list Byte.byte) (i0 : nat)
    (nodes : list (option cacheNode)) (r : request) :
  r ∈ rankedPosts key value i0 nodes →
  ∃ i cn, nodes !! i = Some (Some cn) ∧
          rankedPost key value (i0 + i) (Some cn) = Some r.
Proof.
  revert i0. induction nodes as [|p nodes IH]; intros i0.
  - unfold rankedPosts. simpl. by intros ?%elem_of_nil.
  - rewrite rankedPosts_cons. destruct p as [cn|]; cbn [rankedPost mbind option_bind].
    + intros [->|Hin]%elem_of_cons.
      * exists 0%nat, cn. split; [done|]. by rewrite Nat.add_0_r.
      * destruct (IH _ Hin) as (i & cn' & Hi & Hr). exists (S i), cn'.
        split; [done|]. by replace (i0 + S i)%nat with (S i0 + i)%nat by lia.
    + intros Hin. destruct (IH _ Hin) as (i & cn' & Hi & Hr). exists (S i), cn'.
      split; [done|]. by replace (i0 + S i)%nat with (S i0 + i)%nat by lia.
Qed.

(** C5. A call of [set] on a non-empty ring returns, and the requests it
    makes are those of a prefix of the replica list, the replica at index
    [i] being sent the copy argument [i - 1]: the primary gets [-1], the
    first redundant peer [0]. *)
Theorem set_rank_is_index_minus_one {World : Type} (parses : URL → bool)
    (roundTrip : request → World → World * (error + response))
    (red : Z) (ops : list cacheOp) (key : string) (value : list Byte.byte)
    (s : net World) :
  sortedHashes (hring (cacheRun red ops)) ≠ [] →
  ∃ nodes k e s',
    ring.getNodes key red (hring (cacheRun red ops)) = Returns nodes ∧
    set parses roundTrip key value (cacheRun red ops) s = Returns (e, s') ∧
    (k ≤ length nodes)%nat ∧
    sent s' = sent s ++ filter (λ r, parses (Target r) = true)
                          (rankedPosts key value 0 (take k nodes)) ∧
    (∀ r, r ∈ drop (length (sent s)) (sent s') →
          ∃ i cn, nodes !! i = Some (Some cn) ∧
                  Method r = MethodPost ∧
                  host (Target r) = IP (info cn) ∧
                  port (Target r) = Port (info cn) ∧
                  q_id (Target r) = ID (info cn) ∧
                  q_copy (Target r) = Some (Z.of_nat i - 1)).
Proof.
  intros Hne.
  destruct (getNodes_all_nodes (hring (cacheRun red ops)) key red
              (cache_ringInv_run red ops) Hne) as (nodes & Hnodes & _ & Hall).
  destruct (setLoop_sent parses roundTrip key value nodes 0 None s Hall)
    as (k & e & s' & Hrun & Hk & Hsent).
  exists nodes, k, e, s'. split_and!; [done| |done|done|].
  - unfold set, dbind, lift. by rewrite cacheRun_redundancy, Hnodes.
  - intros r. rewrite Hsent, drop_app_length.
    intros [_ Hr]%list_elem_of_filter.
    apply rankedPosts_elem_of in Hr as (i & cn & Hi & Hr).
    apply lookup_take_Some in Hi as [Hi _].
    exists i, cn. injection Hr as <-. done.
Qed.

Lemma set_rank_is_index_minus_one_witness :
  ∃ nodes k e s',
    ring.getNodes "key1" 2 (hring (cacheRun 2 threePeers)) = Returns nodes ∧
    set (λ _, true) unreachable "key1" [] (cacheRun 2 threePeers)
        {| world := (); sent := [] |} = Returns (e, s') ∧
    (k ≤ length nodes)%nat ∧
    sent s' = [] ++ filter (λ r, (λ _ : URL, true) (Target r) = true)
                      (rankedPosts "key1" [] 0 (take k nodes)) ∧
    (∀ r, r ∈ drop (length ([] : list request)) (sent s') →
          ∃ i cn, nodes !! i = Some (Some cn) ∧
                  Method r = MethodPost ∧
                  host (Target r) = IP (info cn) ∧
                  port (Target r) = Port (info cn) ∧
                  q_id (Target r) = ID (info cn) ∧
                  q_copy (Target r) = Some (Z.of_nat i - 1)).
Proof.
  apply (set_rank_is_index_minus_one (λ _, true) unreachable 2 threePeers
           "key1" [] {| world := (); sent := [] |}).
  vm_compute. discriminate.
Defined.

(** With no peer reachable [set] goes through all three replicas; the
    copy arguments on the wire are -1, 0 and 1, and the last error is
    returned. *)
Example set_ranks_sample :
  match set (λ _, true) unreachable "key1" [] (cacheRun 2 threePeers)
            {| world := (); sent := [] |} with
  | Returns (e, s') =>
      e = Some (Err "no route to host") ∧
      (λ r, (q_id (Target r), q_copy (Target r))) <$> sent s'
      = [("node3", Some (-1)); ("node1", Some 0); ("node2", Some 1)]
  | Panics => False
  end.
Proof. vm_compute. split; reflexivity. Qed.

(** C6 on the code. Two replicas, and a network that answers every
    request with status 503. [set] asks the primary only and reports
    success ([nil]): [setToNode] looks at the transport error and never
    at the status code. [get], on the same network, counts the status as
    a failure and goes on to the second replica. *)
Theorem set_takes_error_status_for_success :
  set (λ _, true) answers503 "key1" [] (cacheRun 1 threePeers)
      {| world := (); sent := [] |}
  = Returns (None,
             {| world := ();
                sent := [{| Method := MethodPost;
                            Target := {| host := "127.0.0.1"; port := "8083";
                                         q_id := "node3"; q_key := None;
                                         q_copy := Some (-1) |};
                            Body := Some {["key1" := []]} |}] |}) ∧
  match get (λ _, true) answers503 "key1" (cacheRun 1 threePeers)
            {| world := (); sent := [] |} with
  | Returns (result, s') =>
      result = ([], false) ∧
      (λ r, q_id (Target r)) <$> sent s' = ["node3"; "node1"]
  | Panics => False
  end.
Proof. vm_compute. split; [reflexivity|split; reflexivity]. Qed.

(** Whatever the status, an answered POST makes [setToNode] return
    [nil]. *)
Lemma setToNode_ignores_status {World : Type}
    (roundTrip : request → World → World * (error + response))
    (cn : cacheNode) (copy : Z) (key : string) (value : list Byte.byte)
    (s : net World) (w : World) (resp : response) :
  roundTrip {| Method := MethodPost; Target := createURLForSet cn key copy;
               Body := Some {[key := value]} |} (world s) = (w, inr resp) →
  ∃ s', setToNode (λ _, true) roundTrip cn copy key value s = Returns (None, s').
Proof.
  intros Hrt. unfold setToNode, dbind, Post, NewRequest, Do. rewrite Hrt.
  by eexists.
Qed.

(** [remove] on a ring whose lookup yields the node [cn]: it does not
    panic, and it hands the client at most one request, the delete for
    [key] addressed to [cn]. *)
Lemma remove_trace {World : Type} (parses : URL → bool)
    (roundTrip : request → World → World * (error + response))
    (c : distributedCache) (key : string) (cn : cacheNode) (s : net World) :
  ring.getNode key (hring c) = Returns (Some cn) →
  ∃ ok s',
    remove parses roundTrip key c s = Returns (ok, s') ∧
    ((s' = s ∧ ok = false) ∨
     (world s' = (roundTrip (deleteFor key cn) (world s)).1 ∧
      sent s' = sent s ++ [deleteFor key cn])).
Proof.
  intros Hget. unfold remove, dbind, deref, lift. rewrite Hget.
  unfold NewRequest. destruct (parses (createURL cn key)).
  - unfold Do.
    change {| Method := MethodDelete; Target := createURL cn key; Body := None |}
      with (deleteFor key cn).
    destruct (roundTrip (deleteFor key cn) (world s)) as [w [e|resp]];
      [|destruct (Payload resp)]; eexists _, _; (split; [done|right; done]).
  - eexists _, _. split; [done|]. by left.
Qed.

Lemma serve_frame (r : request) (w : gmap (string * string) cacheNode)
    (addr : string * string) :
  addr ≠ (host (Target r), port (Target r)) →
  (cluster.serve r w).1 !! addr = w !! addr.
Proof.
  intros Hne. unfold cluster.serve.
  destruct (w !! (host (Target r), port (Target r))) as [cn|]; [|done].
  destruct (node.ServeHTTP r cn) as [cn' resp]. simpl.
  by rewrite lookup_insert_ne.
Qed.

(** C8. [remove] on a non-empty ring returns, having handed the client at
    most one request: the delete for the key, addressed to the node
    [getNode] returns. In a cluster of nodes serving at their addresses,
    the store of every node at another address is what it was. *)
Theorem remove_reaches_primary_only (parses : URL → bool) (red : Z)
    (ops : list cacheOp) (key : string)
    (w : gmap (string * string) cacheNode) (log : list request) :
  sortedHashes (hring (cacheRun red ops)) ≠ [] →
  ∃ cn ok s',
    ring.getNode key (hring (cacheRun red ops)) = Returns (Some cn) ∧
    remove parses cluster.serve key (cacheRun red ops)
           {| world := w; sent := log |} = Returns (ok, s') ∧
    (sent s' = log ∨ sent s' = log ++ [deleteFor key cn]) ∧
    (∀ addr, addr ≠ (IP (info cn), Port (info cn)) →
             world s' !! addr = w !! addr).
Proof.
  intros Hne. pose proof (cache_ringInv_run red ops) as Hinv.
  destruct (getNodes_clockwise (hring (cacheRun red ops)) key 0
              (inv_sorted _ Hinv) Hne) as (p & _ & _ & Hget & _).
  destruct (clockwise_is_Some (hring (cacheRun red ops)) p 0 Hinv Hne)
    as [cn Hcn].
  rewrite Hcn in Hget.
  destruct (remove_trace parses cluster.serve (cacheRun red ops) key cn
              {| world := w; sent := log |} Hget)
    as (ok & s' & Hrun & [[-> ->]|[Hw Hs]]).
  - exists cn, false, {| world := w; sent := log |}.
    split_and!; [done|done|by left|done].
  - exists cn, ok, s'. split_and!; [done|done|by right|].
    intros addr Haddr. rewrite Hw. by apply serve_frame.
Qed.

Lemma remove_reaches_primary_only_witness :
  ∃ cn ok s',
    ring.getNode "key1" (hring (cacheRun 2 threePeers)) = Returns (Some cn) ∧
    remove (λ _, true) cluster.serve "key1" (cacheRun 2 threePeers)
           {| world := threeServers; sent := [] |} = Returns (ok, s') ∧
    (sent s' = [] ∨ sent s' = [] ++ [deleteFor "key1" cn]) ∧
    (∀ addr, addr ≠ (IP (info cn), Port (info cn)) →
             world s' !! addr = threeServers !! addr).
Proof.
  apply (remove_reaches_primary_only (λ _, true) 2 threePeers "key1"
           threeServers []).
  vm_compute. discriminate.
Defined.

(** All three nodes hold "key1"; after [remove] the primary, "node3", no
    longer does, the two redundant replicas still do. *)
Example remove_leaves_replicas :
  match remove (λ _, true) cluster.serve "key1" (cacheRun 2 threePeers)
               {| world := threeServers; sent := [] |} with
  | Returns (ok, s') =>
      ok = true ∧
      sent s' = [deleteFor "key1" (newCacheNode node3)] ∧
      (data <$> world s' !! ("127.0.0.1", "8083")) = Some ∅ ∧
      (data <$> world s' !! ("127.0.0.1", "8081")) = Some held ∧
      (data <$> world s' !! ("127.0.0.1", "8082")) = Some held
  | Panics => False
  end.
Proof. vm_compute. split_and!; reflexivity. Qed.

(** * Further properties of the code *)

(** ** The ring: adding, removing and looking up nodes *)

Lemma strictly_sorted_same_elements (l1 l2 : list Z) :
  StronglySorted Z.lt l1 → StronglySorted Z.lt l2 →
  (∀ x, x ∈ l1 ↔ x ∈ l2) → l1 = l2.
Proof.
  intros H1 H2 Heq.
  assert (AntiSymm eq Z.lt) as Hanti by (intros x y Hxy Hyx; lia).
  apply (StronglySorted_unique Z.lt); [done..|].
  apply NoDup_Permutation; [by apply strictly_sorted_NoDup..|done].
Qed.

Lemma addNode_fresh (node : nodeInfo) (r : hashRing) :
  nodeMap r !! hashOf (ID node) = None →
  ring.addNode node r
  = {| nodes := nodes r ++ [newCacheNode node];
       sortedHashes := sort.Slice (sortedHashes r ++ [hashOf (ID node)]);
       nodeMap := <[hashOf (ID node) := newCacheNode node]> (nodeMap r) |}.
Proof. intros Hfree. unfold ring.addNode. by rewrite Hfree. Qed.

Lemma addNode_hashes (node : nodeInfo) (r : hashRing) (h : Z) :
  ringInv r →
  h ∈ sortedHashes (ring.addNode node r)
  ↔ h ∈ sortedHashes r ∨ h = hashOf (ID node).
Proof.
  intros Hinv. pose proof (ringInv_addNode node r Hinv) as Hinv'.
  rewrite (inv_keys _ Hinv'), (inv_keys _ Hinv). unfold ring.addNode.
  destruct (nodeMap r !! hashOf (ID node)) as [cn|] eqn:Hlk; simpl.
  - split; [by left|]. intros [?| ->]; [done|by eexists].
  - rewrite lookup_insert. case_decide; subst; [|naive_solver].
    split; [by right|by eexists].
Qed.

Lemma removeNode_hashes (nodeID : string) (r : hashRing) (h : Z) :
  ringInv r →
  h ∈ sortedHashes (ring.removeNode nodeID r)
  ↔ h ∈ sortedHashes r ∧ h ≠ hashOf nodeID.
Proof.
  intros Hinv. pose proof (ringInv_removeNode nodeID r Hinv) as Hinv'.
  rewrite (inv_keys _ Hinv'), (inv_keys _ Hinv), removeNode_nodeMap.
  rewrite lookup_delete. case_decide; subst; [|naive_solver].
  split; [by intros [? ?]|naive_solver].
Qed.

Lemma dropID_absent (nodeID : string) (s : list cacheNode) (cn : cacheNode) :
  nodeID ∉ (λ n, ID (info n)) <$> s → ID (info cn) = nodeID →
  ring.dropID nodeID (s ++ [cn]) = s.
Proof.
  induction s as [|n s IH]; simpl; intros Hnot Hcn.
  - by rewrite decide_True.
  - rewrite not_elem_of_cons in Hnot. destruct Hnot as [Hn Hnot].
    rewrite decide_False by done. by rewrite IH.
Qed.

(** X1. On a ring built by [addNode] and [removeNode], removing a node
    that was just added to a free slot gives back the hash sequence and
    the map the ring had; when no node of that ID was left in the node
    list, the whole ring is back. *)
Theorem removeNode_undoes_addNode (ops : list ringOp) (node : nodeInfo) :
  hashOf (ID node) ∉ dom (nodeMap (ringRun ops)) →
  sortedHashes (ring.removeNode (ID node) (ring.addNode node (ringRun ops)))
  = sortedHashes (ringRun ops) ∧
  nodeMap (ring.removeNode (ID node) (ring.addNode node (ringRun ops)))
  = nodeMap (ringRun ops) ∧
  (ID node ∉ listIDs (ringRun ops) →
   ring.removeNode (ID node) (ring.addNode node (ringRun ops)) = ringRun ops).
Proof.
  intros Hfree%not_elem_of_dom. pose proof (ringInv_run ops) as Hinv.
  set (r := ringRun ops) in *.
  assert (sortedHashes (ring.removeNode (ID node) (ring.addNode node r))
          = sortedHashes r) as Hs.
  { apply strictly_sorted_same_elements.
    - apply ringInv_removeNode, ringInv_addNode, Hinv.
    - apply Hinv.
    - intros h. rewrite removeNode_hashes by by apply ringInv_addNode.
      rewrite addNode_hashes by done. split; [naive_solver|].
      intros Hh. split; [by left|]. intros ->.
      apply (inv_keys _ Hinv) in Hh as [? ?]. congruence. }
  assert (nodeMap (ring.removeNode (ID node) (ring.addNode node r))
          = nodeMap r) as Hm.
  { rewrite removeNode_nodeMap, addNode_fresh by done. simpl.
    by apply delete_insert_id. }
  split_and!; [done..|].
  intros Hlist.
  assert (nodes (ring.removeNode (ID node) (ring.addNode node r)) = nodes r)
    as Hn.
  { rewrite addNode_fresh by done. unfold ring.removeNode. simpl.
    rewrite lookup_insert_eq. simpl. apply dropID_absent; [|done].
    unfold listIDs in Hlist. by rewrite elem_of_list_to_set in Hlist. }
  destruct (ring.removeNode (ID node) (ring.addNode node r)), r.
  simpl in *. by subst.
Qed.

Lemma removeNode_undoes_addNode_witness :
  ring.removeNode (ID node3) (ring.addNode node3 (ringRun [RingAdd node1; RingAdd node2]))
  = ringRun [RingAdd node1; RingAdd node2].
Proof.
  apply (removeNode_undoes_addNode [RingAdd node1; RingAdd node2] node3).
  - apply not_elem_of_dom. vm_compute. reflexivity.
  - apply (bool_decide_unpack _). vm_compute. exact I.
Defined.

(** X2. The hash sequence of a ring built by [addNode] and [removeNode]
    has as many entries as the map: [len(sortedHashes) == len(nodeMap)]. *)
Theorem ring_length_is_map_size (ops : list ringOp) :
  length (sortedHashes (ringRun ops)) = size (nodeMap (ringRun ops)).
Proof.
  destruct (ringInv_run ops) as [Hs Hk Hh].
  rewrite <- size_dom, <- (size_list_to_set (C := gset Z))
    by by apply strictly_sorted_NoDup.
  f_equal. apply set_eq. intros h.
  by rewrite elem_of_list_to_set, elem_of_dom.
Qed.

(** *** Lookups when the ring changes *)

Lemma landsOn_unique (hs : list Z) (k h1 h2 : Z) :
  landsOn hs k h1 → landsOn hs k h2 → h1 = h2.
Proof.
  intros [Hin1 [[Hge1 Hmin1]|[Hlt1 Hmin1]]] [Hin2 [[Hge2 Hmin2]|[Hlt2 Hmin2]]].
  - specialize (Hmin1 _ Hin2 Hge2). specialize (Hmin2 _ Hin1 Hge1). lia.
  - specialize (Hlt2 _ Hin1). lia.
  - specialize (Hlt1 _ Hin2). lia.
  - specialize (Hmin1 _ Hin2). specialize (Hmin2 _ Hin1). lia.
Qed.

Lemma landsOn_subset (hs hs' : list Z) (k h : Z) :
  landsOn hs k h → (∀ x, x ∈ hs' → x ∈ hs) → h ∈ hs' → landsOn hs' k h.
Proof.
  intros [Hin [[Hge Hmin]|[Hlt Hmin]]] Hsub Hin'; (split; [done|]).
  - left. split; [done|]. intros h' Hh'. apply Hmin. by apply Hsub.
  - right. split; intros h' Hh'; [apply Hlt|apply Hmin]; by apply Hsub.
Qed.

(** [getNode] in terms of where the key hash lands. *)
Lemma getNode_landsOn (r : hashRing) (key : string) :
  ringInv r → sortedHashes r ≠ [] →
  ∃ h cn, landsOn (sortedHashes r) (hashOf key) h ∧
          nodeMap r !! h = Some cn ∧
          ring.getNode key r = Returns (Some cn).
Proof.
  intros Hinv Hne.
  destruct (primaryIdx_landsOn r (hashOf key) (inv_sorted _ Hinv) Hne)
    as (p & h & Hp & Hl & Hon).
  destruct (proj1 (inv_keys _ Hinv h)) as [cn Hcn]; [by apply Hon|].
  exists h, cn. split_and!; [done..|].
  unfold ring.getNode. rewrite Hp. cbn [obind]. unfold index.
  rewrite Hl. cbn [obind]. by rewrite Hcn.
Qed.

Lemma nonempty_elem_of (hs : list Z) (h : Z) : h ∈ hs → hs ≠ [].
Proof. intros Hin ->. by apply elem_of_nil in Hin. Qed.

(** X3. Adding a node moves keys to the new node only: on a non-empty
    ring built by [addNode] and [removeNode], after [addNode(node)] every
    key is served by the node that served it before, or by the node just
    added. *)
Theorem addNode_moves_keys_to_new_node_only (ops : list ringOp)
    (node : nodeInfo) (key : string) :
  sortedHashes (ringRun ops) ≠ [] →
  ring.getNode key (ring.addNode node (ringRun ops))
  = ring.getNode key (ringRun ops) ∨
  ring.getNode key (ring.addNode node (ringRun ops))
  = Returns (Some (newCacheNode node)).
Proof.
  intros Hne. pose proof (ringInv_run ops) as Hinv.
  set (r := ringRun ops) in *.
  destruct (nodeMap r !! hashOf (ID node)) as [old|] eqn:Hslot.
  { left. unfold ring.addNode. by rewrite Hslot. }
  pose proof (ringInv_addNode node r Hinv) as Hinv'.
  destruct (getNode_landsOn r key Hinv Hne) as (h & cn & Hon & Hcn & Hget).
  destruct (getNode_landsOn (ring.addNode node r) key Hinv')
    as (h' & cn' & Hon' & Hcn' & Hget').
  { apply (nonempty_elem_of _ (hashOf (ID node))).
    rewrite addNode_hashes by done. by right. }
  rewrite Hget, Hget'.
  rewrite addNode_fresh in Hcn' by done. simpl in Hcn'.
  destruct (decide (h' = hashOf (ID node))) as [->|Hother].
  - right. rewrite lookup_insert_eq in Hcn'. congruence.
  - left. rewrite lookup_insert_ne in Hcn' by done.
    assert (h' ∈ sortedHashes r) as Hin.
    { apply (inv_keys _ Hinv). by eexists. }
    assert (landsOn (sortedHashes r) (hashOf key) h') as Hon''.
    { eapply landsOn_subset; [done| |done].
      intros x Hx. rewrite addNode_hashes by done. by left. }
    rewrite (landsOn_unique _ _ _ _ Hon Hon'') in Hcn. congruence.
Qed.

Lemma addNode_moves_keys_to_new_node_only_witness :
  ring.getNode "key2" (ring.addNode node3 (ringRun [RingAdd node1; RingAdd node2]))
  = ring.getNode "key2" (ringRun [RingAdd node1; RingAdd node2]) ∨
  ring.getNode "key2" (ring.addNode node3 (ringRun [RingAdd node1; RingAdd node2]))
  = Returns (Some (newCacheNode node3)).
Proof.
  apply (addNode_moves_keys_to_new_node_only [RingAdd node1; RingAdd node2]
           node3 "key2").
  vm_compute. discriminate.
Defined.

(** X4. Removing a node moves only the keys it served: when [getNode]
    yields a node filed under another hash than that of [nodeID], it
    yields the same node after [removeNode(nodeID)]. *)
Theorem removeNode_keeps_other_owners (ops : list ringOp) (nodeID : string)
    (key : string) (cn : cacheNode) :
  ring.getNode key (ringRun ops) = Returns (Some cn) →
  hashOf (ID (info cn)) ≠ hashOf nodeID →
  ring.getNode key (ring.removeNode nodeID (ringRun ops)) = Returns (Some cn).
Proof.
  intros Hget Hother. pose proof (ringInv_run ops) as Hinv.
  set (r := ringRun ops) in *.
  assert (sortedHashes r ≠ []) as Hne.
  { intros Hnil. rewrite empty_ring_getNode in Hget by done. discriminate. }
  destruct (getNode_landsOn r key Hinv Hne) as (h & cn0 & Hon & Hcn & Hget0).
  assert (cn0 = cn) as -> by congruence.
  pose proof (inv_hash _ Hinv _ _ Hcn) as Hh.
  pose proof (ringInv_removeNode nodeID r Hinv) as Hinv'.
  assert (h ∈ sortedHashes (ring.removeNode nodeID r)) as Hin'.
  { rewrite removeNode_hashes by done. split; [apply Hon|congruence]. }
  destruct (getNode_landsOn (ring.removeNode nodeID r) key Hinv')
    as (h' & cn' & Hon' & Hcn' & Hget'); [by eapply nonempty_elem_of|].
  assert (landsOn (sortedHashes (ring.removeNode nodeID r)) (hashOf key) h)
    as Hon''.
  { eapply landsOn_subset; [done| |done].
    intros x Hx. rewrite removeNode_hashes in Hx by done. tauto. }
  rewrite (landsOn_unique _ _ _ _ Hon' Hon'') in Hcn'.
  rewrite removeNode_nodeMap, lookup_delete_ne in Hcn' by congruence.
  congruence.
Qed.

Lemma removeNode_keeps_other_owners_witness :
  ring.getNode "key1"
    (ring.removeNode "node2" (ringRun [RingAdd node1; RingAdd node2; RingAdd node3]))
  = Returns (Some (newCacheNode node3)).
Proof.
  apply (removeNode_keeps_other_owners
           [RingAdd node1; RingAdd node2; RingAdd node3] "node2" "key1"
           (newCacheNode node3)).
  - vm_compute. reflexivity.
  - vm_compute. discriminate.
Defined.

(** X5. [getNodeByID] on a ring built by [addNode] and [removeNode]:
    after [addNode(node)] it finds a node for [node.ID], the node just
    added when the slot was free and in any case one whose ID has the
    CRC-32 of [node.ID]; after [removeNode(id)] it finds none for [id];
    and neither operation changes what it finds for an ID with another
    CRC-32. *)
Theorem getNodeByID_after_change (ops : list ringOp) (node : nodeInfo)
    (id : string) :
  (∃ cn, ring.getNodeByID (ID node) (ring.addNode node (ringRun ops)) = Some cn ∧
         hashOf (ID (info cn)) = hashOf (ID node) ∧
         (ring.getNodeByID (ID node) (ringRun ops) = None →
          cn = newCacheNode node)) ∧
  ring.getNodeByID id (ring.removeNode id (ringRun ops)) = None ∧
  (hashOf id ≠ hashOf (ID node) →
   ring.getNodeByID id (ring.addNode node (ringRun ops))
   = ring.getNodeByID id (ringRun ops) ∧
   ring.getNodeByID id (ring.removeNode (ID node) (ringRun ops))
   = ring.getNodeByID id (ringRun ops)).
Proof.
  pose proof (ringInv_run ops) as Hinv. set (r := ringRun ops) in *.
  unfold ring.getNodeByID. split_and!.
  - destruct (nodeMap r !! hashOf (ID node)) as [old|] eqn:Hslot.
    + exists old. unfold ring.addNode. rewrite Hslot.
      split_and!; [done|by eapply inv_hash|done].
    + exists (newCacheNode node). rewrite addNode_fresh by done. simpl.
      by rewrite lookup_insert_eq.
  - by rewrite removeNode_nodeMap, lookup_delete_eq.
  - intros Hne. split.
    + unfold ring.addNode.
      destruct (nodeMap r !! hashOf (ID node)); [done|]. simpl.
      by rewrite lookup_insert_ne.
    + by rewrite removeNode_nodeMap, lookup_delete_ne.
Qed.

Lemma getNodeByID_after_change_witness :
  ring.getNodeByID "node1" (ring.addNode node3 (ringRun [RingAdd node1; RingAdd node2]))
  = ring.getNodeByID "node1" (ringRun [RingAdd node1; RingAdd node2]) ∧
  ring.getNodeByID "node1" (ring.removeNode (ID node3) (ringRun [RingAdd node1; RingAdd node2]))
  = ring.getNodeByID "node1" (ringRun [RingAdd node1; RingAdd node2]).
Proof.
  apply (getNodeByID_after_change [RingAdd node1; RingAdd node2] node3 "node1").
  vm_compute. discriminate.
Defined.

(** *** Replica lists *)

(** X6. Asking for more redundancy only appends replicas: on a non-empty
    ring, the list [getNodes] returns for a redundancy is a prefix of the
    list it returns for a larger one. *)
Theorem getNodes_grows_with_redundancy (ops : list ringOp) (key : string)
    (red red' : Z) :
  red ≤ red' → sortedHashes (ringRun ops) ≠ [] →
  ∃ l l', ring.getNodes key red (ringRun ops) = Returns l ∧
          ring.getNodes key red' (ringRun ops) = Returns l' ∧
          l `prefix_of` l'.
Proof.
  intros Hle Hne. pose proof (ringInv_run ops) as Hinv.
  destruct (getNodes_clockwise (ringRun ops) key red (inv_sorted _ Hinv) Hne)
    as (p & Hp & _ & _ & Hl).
  destruct (getNodes_clockwise (ringRun ops) key red' (inv_sorted _ Hinv) Hne)
    as (p' & Hp' & _ & _ & Hl').
  assert (p' = p) as -> by congruence.
  eexists _, _. split_and!; [done..|].
  set (n := length (sortedHashes (ringRun ops))).
  set (a := S (Z.to_nat red `min` (n - 1))).
  set (b := S (Z.to_nat red' `min` (n - 1))).
  assert (a ≤ b)%nat as Hab by (unfold a, b; lia).
  replace b with (a + (b - a))%nat by lia.
  rewrite seq_app, fmap_app. by apply prefix_app_r.
Qed.

Lemma getNodes_grows_with_redundancy_witness :
  ∃ l l',
    ring.getNodes "key1" 0 (ringRun [RingAdd node1; RingAdd node2; RingAdd node3])
    = Returns l ∧
    ring.getNodes "key1" 1 (ringRun [RingAdd node1; RingAdd node2; RingAdd node3])
    = Returns l' ∧
    l `prefix_of` l'.
Proof.
  apply (getNodes_grows_with_redundancy
           [RingAdd node1; RingAdd node2; RingAdd node3] "key1" 0 1).
  - lia.
  - vm_compute. discriminate.
Defined.

Lemma clockwise_reaches (n p j : nat) :
  (p < n)%nat → (j < n)%nat →
  ((p + (j + n - p) mod n) mod n = j)%nat.
Proof.
  intros Hp Hj. rewrite Nat.Div0.add_mod_idemp_r.
  replace (p + (j + n - p))%nat with (j + 1 * n)%nat by lia.
  rewrite Nat.Div0.mod_add. apply Nat.mod_small. lia.
Qed.

(** X7. With a redundancy of at least the ring size minus one,
    [getNodes] returns every node of the ring, each once. *)
Theorem getNodes_returns_whole_ring (ops : list ringOp) (key : string)
    (red : Z) :
  sortedHashes (ringRun ops) ≠ [] →
  Z.of_nat (length (sortedHashes (ringRun ops))) - 1 ≤ red →
  ∃ l, ring.getNodes key red (ringRun ops) = Returns l ∧
       length l = size (nodeMap (ringRun ops)) ∧
       NoDup l ∧
       (∀ cn, Some cn ∈ l ↔ ∃ h, nodeMap (ringRun ops) !! h = Some cn).
Proof.
  intros Hne Hred. pose proof (ringInv_run ops) as Hinv.
  destruct (getNodes_clockwise (ringRun ops) key red (inv_sorted _ Hinv) Hne)
    as (p & Hp & Hlt & _ & Hl).
  set (r := ringRun ops) in *. set (n := length (sortedHashes r)) in *.
  replace (S (Z.to_nat red `min` (n - 1))) with n in Hl by lia.
  exists (clockwise r p <$> seq 0 n). split_and!; [done| | |].
  - rewrite length_fmap, length_seq. unfold n.
    destruct Hinv as [Hs Hk Hh].
    rewrite <- size_dom, <- (size_list_to_set (C := gset Z))
      by by apply strictly_sorted_NoDup.
    f_equal. apply set_eq. intros h.
    by rewrite elem_of_list_to_set, elem_of_dom.
  - apply NoDup_fmap_2_strong; [|apply NoDup_seq].
    intros i i' Hi%elem_of_seq Hi'%elem_of_seq Heq.
    eapply clockwise_inj; [done|unfold n in *; lia..|done].
  - intros cn. rewrite list_elem_of_fmap. split.
    + intros (i & Hcw & _).
      destruct (clockwise_lookup r p i Hne) as (h & _ & Hc).
      exists h. congruence.
    + intros (h & Hcn).
      assert (h ∈ sortedHashes r) as Hin.
      { apply (inv_keys _ Hinv). by eexists. }
      apply list_elem_of_lookup in Hin as (j & Hj).
      pose proof (lookup_lt_Some _ _ _ Hj) as Hjn. fold n in Hjn.
      exists ((j + n - p) mod n)%nat. split.
      * unfold clockwise. fold n. rewrite clockwise_reaches by done.
        rewrite Hj. simpl. done.
      * apply elem_of_seq. split; [lia|]. simpl.
        apply Nat.mod_upper_bound. lia.
Qed.

Lemma getNodes_returns_whole_ring_witness :
  ∃ l,
    ring.getNodes "key1" 2 (ringRun [RingAdd node1; RingAdd node2; RingAdd node3])
    = Returns l ∧
    length l
    = size (nodeMap (ringRun [RingAdd node1; RingAdd node2; RingAdd node3])) ∧
    NoDup l ∧
    (∀ cn, Some cn ∈ l ↔
           ∃ h, nodeMap (ringRun [RingAdd node1; RingAdd node2; RingAdd node3])
                  !! h = Some cn).
Proof.
  apply (getNodes_returns_whole_ring
           [RingAdd node1; RingAdd node2; RingAdd node3] "key1" 2).
  - vm_compute. discriminate.
  - vm_compute. discriminate.
Defined.

(** ** The registry *)

Lemma ring_registered_step (c : distributedCache) (op : cacheOp) :
  ringInv (hring c) →
  (∀ h cn, nodeMap (hring c) !! h = Some cn →
           is_Some (nodeHB c !! ID (info cn))) →
  ∀ h cn, nodeMap (hring (cacheStep c op)) !! h = Some cn →
          is_Some (nodeHB (cacheStep c op) !! ID (info cn)).
Proof.
  intros Hinv Hreg h cn. destruct op as [node now|nodeID]; simpl.
  - intros Hcn. rewrite lookup_insert. case_decide; [by eexists|].
    apply (Hreg h). destruct (nodeHB c !! ID node); [done|].
    unfold ring.addNode in Hcn.
    destruct (nodeMap (hring c) !! hashOf (ID node)); [done|].
    simpl in Hcn. rewrite lookup_insert in Hcn.
    case_decide; [|done]. injection Hcn as <-. done.
  - rewrite removeNode_nodeMap, lookup_delete.
    case_decide as Hh; [done|]. intros Hcn.
    rewrite lookup_delete_ne; [by eapply Hreg|].
    intros ->. by rewrite (inv_hash _ Hinv _ _ Hcn) in Hh.
Qed.

(** X8. Whatever the IDs, colliding or not: in every state reached by
    [addNode] and [removeNode_unlocked] from the empty cache, every node
    in the ring's map has its ID in the heartbeat registry. *)
Theorem ring_nodes_are_registered (red : Z) (ops : list cacheOp) :
  mapIDs (hring (cacheRun red ops)) ⊆ dom (nodeHB (cacheRun red ops)).
Proof.
  assert (∀ c, ringInv (hring c) →
            (∀ h cn, nodeMap (hring c) !! h = Some cn →
                     is_Some (nodeHB c !! ID (info cn))) →
            ∀ h cn, nodeMap (hring (foldl cacheStep c ops)) !! h = Some cn →
                    is_Some (nodeHB (foldl cacheStep c ops) !! ID (info cn)))
    as Hfold.
  { induction ops as [|op ops IH]; intros c Hinv Hreg; simpl; [done|].
    apply IH; [by apply cache_ringInv_step|by apply ring_registered_step]. }
  intros id (h & cn & Hcn & <-)%elem_of_mapIDs. apply elem_of_dom.
  eapply (Hfold (cache.newDistributedCache red)); [apply ringInv_new| |done].
  intros h' cn'. simpl. by rewrite lookup_empty.
Qed.

(** ** The monitor sweep, entry by entry *)

(** The registry and the ring's map after a sweep, lookup by lookup. *)
Lemma sweep_lookup (c : distributedCache) (myNodeID : string) (now : Z)
    (order : list string) :
  discovery.rangeOrder (nodeHB c) order →
  (∀ id, nodeHB (discovery.sweep myNodeID now order c) !! id
         = if expired myNodeID now (nodeHB c) id then None
           else nodeHB c !! id) ∧
  (∀ h, (∀ id, expired myNodeID now (nodeHB c) id = true → hashOf id ≠ h) →
        nodeMap (hring (discovery.sweep myNodeID now order c)) !! h
        = nodeMap (hring c) !! h).
Proof.
  intros Horder.
  rewrite (sweep_removals myNodeID now order c) by by eapply rangeOrder_NoDup.
  assert (∀ id, id ∈ victims myNodeID now (nodeHB c) order
                ↔ expired myNodeID now (nodeHB c) id = true) as Hvs.
  { intros id. unfold victims. rewrite list_elem_of_filter.
    split; [tauto|]. intros Hexp. split; [done|].
    apply expired_true in Hexp as (_ & t & Hid & _).
    by eapply rangeOrder_elem_of. }
  split.
  - intros id. rewrite removals_nodeHB.
    destruct (expired myNodeID now (nodeHB c) id) eqn:Hexp.
    + by rewrite decide_True by by apply Hvs.
    + rewrite decide_False; [done|]. rewrite Hvs. congruence.
  - intros h Hh. rewrite removals_nodeMap, decide_False; [done|].
    intros (id & -> & Hid%Hvs)%list_elem_of_fmap. by eapply Hh.
Qed.

(** X9. After a sweep the registry holds exactly the entries that were
    not expired, with the timestamps they had; and a slot of the ring's
    map is untouched unless an expired ID has its hash. This holds in any
    state of the cache. *)
Theorem sweep_keeps_what_is_not_expired (c : distributedCache)
    (myNodeID : string) (now : Z) (order : list string) :
  discovery.rangeOrder (nodeHB c) order →
  (∀ id, nodeHB (discovery.sweep myNodeID now order c) !! id
         = if expired myNodeID now (nodeHB c) id then None
           else nodeHB c !! id) ∧
  (∀ h, (∀ id, expired myNodeID now (nodeHB c) id = true → hashOf id ≠ h) →
        nodeMap (hring (discovery.sweep myNodeID now order c)) !! h
        = nodeMap (hring c) !! h).
Proof. apply sweep_lookup. Qed.

Lemma sweep_keeps_what_is_not_expired_witness :
  nodeHB (discovery.sweep "node1" 20000000000 ["node3"; "node1"; "node2"]
            (cacheRun 1 threePeers)) !! "node3"
  = (if expired "node1" 20000000000 (nodeHB (cacheRun 1 threePeers)) "node3"
     then None else nodeHB (cacheRun 1 threePeers) !! "node3") ∧
  nodeHB (discovery.sweep "node1" 20000000000 ["node3"; "node1"; "node2"]
            (cacheRun 1 threePeers)) !! "node2"
  = (if expired "node1" 20000000000 (nodeHB (cacheRun 1 threePeers)) "node2"
     then None else nodeHB (cacheRun 1 threePeers) !! "node2").
Proof.
  assert (discovery.rangeOrder (nodeHB (cacheRun 1 threePeers))
            ["node3"; "node1"; "node2"]) as Hrange.
  { unfold discovery.rangeOrder. vm_compute. reflexivity. }
  destruct (sweep_keeps_what_is_not_expired (cacheRun 1 threePeers) "node1"
              20000000000 ["node3"; "node1"; "node2"] Hrange) as [Hhb _].
  split; apply Hhb.
Defined.

Lemma filter_none {A} (P : A → Prop) `{∀ x, Decision (P x)} (l : list A) :
  (∀ x, x ∈ l → ¬ P x) → filter P l = [].
Proof.
  induction l as [|x l IH]; intros Hno; [done|].
  rewrite filter_cons, decide_False by (apply Hno; by left).
  apply IH. intros y Hy. apply Hno. by right.
Qed.

(** X10. A second sweep at the same instant finds nothing to do: it
    leaves the cache exactly as the first sweep left it. *)
Theorem sweep_twice_is_sweep_once (c : distributedCache) (myNodeID : string)
    (now : Z) (order order' : list string) :
  discovery.rangeOrder (nodeHB c) order →
  discovery.rangeOrder (nodeHB (discovery.sweep myNodeID now order c)) order' →
  discovery.sweep myNodeID now order' (discovery.sweep myNodeID now order c)
  = discovery.sweep myNodeID now order c.
Proof.
  intros Horder Horder'.
  destruct (sweep_lookup c myNodeID now order Horder) as [Hhb _].
  set (c' := discovery.sweep myNodeID now order c) in *.
  rewrite (sweep_removals myNodeID now order' c')
    by by eapply rangeOrder_NoDup.
  unfold victims. rewrite filter_none; [done|].
  intros id _ Hexp. unfold expired in Hexp. rewrite Hhb in Hexp.
  destruct (expired myNodeID now (nodeHB c) id) eqn:Hold; [done|].
  unfold expired in Hold. destruct (nodeHB c !! id); congruence.
Qed.

Lemma sweep_twice_is_sweep_once_witness :
  discovery.sweep "node1" 20000000000 ["node3"; "node1"]
    (discovery.sweep "node1" 20000000000 ["node3"; "node1"; "node2"]
       (cacheRun 1 threePeers))
  = discovery.sweep "node1" 20000000000 ["node3"; "node1"; "node2"]
      (cacheRun 1 threePeers).
Proof.
  apply (sweep_twice_is_sweep_once (cacheRun 1 threePeers) "node1"
           20000000000 ["node3"; "node1"; "node2"] ["node3"; "node1"]).
  - unfold discovery.rangeOrder. vm_compute. reflexivity.
  - unfold discovery.rangeOrder. vm_compute. reflexivity.
Defined.

(** ** The receiver loop *)

(** One iteration leaves the cache alone or adds one node, never the
    local one. *)
Lemma receiveOne_cache (myNodeID myGroupID : string) (now : Z)
    (p : discovery.packet) (st : discovery.receiver) :
  discovery.rcache (discovery.receiveOne myNodeID myGroupID now p st).1
  = discovery.rcache st ∨
  ∃ n, ID n ≠ myNodeID ∧
       discovery.rcache (discovery.receiveOne myNodeID myGroupID now p st).1
       = cache.addNode n now (discovery.rcache st).
Proof.
  unfold discovery.receiveOne.
  destruct p as [| |i a pt g mistyped]; [by left| |];
    destruct (discovery.Unmarshal _ _) as [n err];
    (destruct err; [by left|]);
    (case_decide; [by left|]); (case_decide; [by left|]);
    right; by exists n.
Qed.

Lemma addNode_keeps (n : nodeInfo) (now : Z) (c : distributedCache) :
  (∀ id, id ≠ ID n →
         nodeHB (cache.addNode n now c) !! id = nodeHB c !! id) ∧
  (∀ id, is_Some (nodeHB c !! id) →
         is_Some (nodeHB (cache.addNode n now c) !! id)) ∧
  (∀ h cn, nodeMap (hring c) !! h = Some cn →
           nodeMap (hring (cache.addNode n now c)) !! h = Some cn).
Proof.
  split_and!; simpl.
  - intros id Hne. by rewrite lookup_insert_ne.
  - intros id Hid. rewrite lookup_insert. by case_decide.
  - intros h cn Hcn. destruct (nodeHB c !! ID n); [done|].
    unfold ring.addNode.
    destruct (nodeMap (hring c) !! hashOf (ID n)) eqn:Hslot; [done|].
    simpl. rewrite lookup_insert_ne; [done|]. congruence.
Qed.

(** X11. Whatever datagrams arrive, the receiver loop never removes a
    registry entry, never moves a node out of its slot of the ring, and
    never registers or refreshes the local node's own ID. *)
Theorem receiver_only_adds_others (myNodeID myGroupID : string)
    (ps : list (Z * discovery.packet)) (c : distributedCache) :
  nodeHB (discovery.receiveHeartbeats myNodeID myGroupID ps c) !! myNodeID
  = nodeHB c !! myNodeID ∧
  (∀ id, is_Some (nodeHB c !! id) →
         is_Some (nodeHB (discovery.receiveHeartbeats myNodeID myGroupID ps c)
                    !! id)) ∧
  (∀ h cn, nodeMap (hring c) !! h = Some cn →
           nodeMap (hring (discovery.receiveHeartbeats myNodeID myGroupID ps c))
             !! h = Some cn).
Proof.
  unfold discovery.receiveHeartbeats.
  assert (∀ st,
    nodeHB (discovery.rcache
      (foldl (λ st tp, (discovery.receiveOne myNodeID myGroupID tp.1 tp.2 st).1)
             st ps)) !! myNodeID
    = nodeHB (discovery.rcache st) !! myNodeID ∧
    (∀ id, is_Some (nodeHB (discovery.rcache st) !! id) →
       is_Some (nodeHB (discovery.rcache
         (foldl (λ st tp, (discovery.receiveOne myNodeID myGroupID tp.1 tp.2 st).1)
                st ps)) !! id)) ∧
    (∀ h cn, nodeMap (hring (discovery.rcache st)) !! h = Some cn →
       nodeMap (hring (discovery.rcache
         (foldl (λ st tp, (discovery.receiveOne myNodeID myGroupID tp.1 tp.2 st).1)
                st ps))) !! h = Some cn)) as Hloop.
  { induction ps as [|[t p] ps IH]; intros st; [done|].
    cbn [foldl fst snd].
    destruct (IH (discovery.receiveOne myNodeID myGroupID t p st).1)
      as (Hown & Hkeep & Hslot).
    destruct (receiveOne_cache myNodeID myGroupID t p st)
      as [Heq|(n & Hn & Heq)]; rewrite Heq in Hown, Hkeep, Hslot.
    - done.
    - destruct (addNode_keeps n t (discovery.rcache st)) as (Ha & Hb & Hc).
      split_and!.
      + rewrite Hown. by apply Ha.
      + intros id Hid. by apply Hkeep, Hb.
      + intros h cn Hcn. by apply Hslot, Hc. }
  exact (Hloop {| discovery.node :=
                    {| ID := ""; IP := ""; Port := ""; GroupID := "" |};
                  discovery.rcache := c |}).
Qed.



(** ** The handler of a node *)

(** X13. A POST with a copy factor and a decodable body is answered 200
    and stores every pair of the body with that copy factor and the
    CRC-32 of its value, leaving the other keys and the node descriptor
    as they were; without a copy factor or without a decodable body the
    answer is 400 and nothing is stored. *)
Theorem ServeHTTP_post (u : URL) (body : option (gmap string (list Byte.byte)))
    (cn : cacheNode) :
  match q_copy u, body with
  | Some copy, Some kv =>
      StatusCode (node.ServeHTTP
                    {| Method := MethodPost; Target := u; Body := body |} cn).2
      = StatusOK ∧
      info (node.ServeHTTP
              {| Method := MethodPost; Target := u; Body := body |} cn).1
      = info cn ∧
      ∀ k, data (node.ServeHTTP
                   {| Method := MethodPost; Target := u; Body := body |} cn).1
             !! k
           = match kv !! k with
             | Some v => Some (entryOf copy v)
             | None => data cn !! k
             end
  | _, _ =>
      node.ServeHTTP {| Method := MethodPost; Target := u; Body := body |} cn
      = (cn, {| StatusCode := StatusBadRequest; Payload := Some [] |})
  end.
Proof.
  unfold node.ServeHTTP. simpl.
  destruct (q_copy u) as [copy|]; [|done]. destruct body as [kv|]; [|done].
  simpl. split; [done|].
  apply (map_fold_weak_ind
           (λ acc (m : gmap string (list Byte.byte)),
              info acc = info cn ∧
              ∀ k, data acc !! k
                   = match m !! k with
                     | Some v => Some (entryOf copy v)
                     | None => data cn !! k
                     end)).
  - split; [done|]. intros k. by rewrite lookup_empty.
  - intros i x m acc Hi [Hinfo Hdata]. split; [done|]. intros k. simpl.
    rewrite !lookup_insert. case_decide; [done|apply Hdata].
Qed.

(** X14. Through the handler: after a POST of one pair, a GET of its key
    is answered 200 with the value; after a DELETE of the key, a GET of
    it is answered 404; a GET never changes the node. *)
Theorem ServeHTTP_round_trip (uset uget : URL) (copy : Z) (key : string)
    (value : list Byte.byte) (cn : cacheNode) :
  q_copy uset = Some copy → q_key uget = Some key →
  (node.ServeHTTP {| Method := MethodGet; Target := uget; Body := None |} cn).1
  = cn ∧
  (node.ServeHTTP {| Method := MethodGet; Target := uget; Body := None |}
     (node.ServeHTTP {| Method := MethodPost; Target := uset;
                        Body := Some {[key := value]} |} cn).1).2
  = {| StatusCode := StatusOK; Payload := Some value |} ∧
  (node.ServeHTTP {| Method := MethodGet; Target := uget; Body := None |}
     (node.ServeHTTP {| Method := MethodDelete; Target := uget; Body := None |}
        cn).1).2
  = {| StatusCode := StatusNotFound; Payload := Some [] |}.
Proof.
  intros Hcopy Hkey. split_and!.
  - unfold node.ServeHTTP. simpl. by destruct (node.get _ cn) as [v []].
  - unfold node.ServeHTTP, node.queryKey. simpl.
    rewrite Hcopy, Hkey. simpl. rewrite map_fold_singleton.
    unfold node.get, node.set. simpl. by rewrite lookup_insert_eq.
  - unfold node.ServeHTTP, node.queryKey. simpl.
    rewrite Hkey. simpl. unfold node.get, node.remove. simpl.
    by rewrite lookup_delete_eq.
Qed.

Lemma ServeHTTP_round_trip_witness :
  (node.ServeHTTP
     {| Method := MethodGet;
        Target := createURL (newCacheNode node1) "key1"; Body := None |}
     (node.ServeHTTP
        {| Method := MethodPost;
           Target := createURLForSet (newCacheNode node1) "key1" 0;
           Body := Some {["key1" := []]} |} (newCacheNode node1)).1).2
  = {| StatusCode := StatusOK; Payload := Some [] |}.
Proof.
  apply (ServeHTTP_round_trip
           (createURLForSet (newCacheNode node1) "key1" 0)
           (createURL (newCacheNode node1) "key1")
           0 "key1" [] (newCacheNode node1)); reflexivity.
Defined.

(** ** The dispatcher over a cluster *)

















(** ** The dispatcher over any network *)

Section DispatcherTraces.

Context {World : Type}.
Variable parses : URL → bool.
Variable roundTrip : request → World → World * (error + response).

(** The loop of [set] when every request fails in transport: every
    replica is tried, and an error comes back. *)
Lemma setLoop_all_fail (key : string) (value : list Byte.byte)
    (nodes : list (option cacheNode)) (i0 : nat) (err : option error)
    (s : net World) :
  (∀ r w, ∃ e, (roundTrip r w).2 = inl e) →
  Forall is_Some nodes →
  ∃ e s',
    setLoop parses roundTrip key value (Z.of_nat i0) nodes err s
    = Returns (e, s') ∧
    (nodes ≠ [] → is_Some e) ∧
    sent s' = sent s ++ filter (λ r, parses (Target r) = true)
                          (rankedPosts key value i0 nodes).
Proof.
  intros Hfail Hall. revert i0 err s.
  induction Hall as [|p nodes [cn ->] Hall IH]; intros i0 err s.
  - exists err, s. split_and!; [done..|]. by rewrite app_nil_r.
  - cbn [setLoop]. unfold dbind at 1, deref, lift.
    unfold dbind at 1, setToNode, dbind at 1, Post, NewRequest.
    rewrite rankedPosts_cons. cbn [rankedPost mbind option_bind createURLForSet].
    replace (Z.of_nat i0 + 1) with (Z.of_nat (S i0)) by lia.
    destruct (parses _) eqn:Hparse.
    + unfold Do.
      destruct (Hfail
        {| Method := MethodPost;
           Target := {| host := IP (info cn); port := Port (info cn);
                        q_id := ID (info cn); q_key := None;
                        q_copy := Some (Z.of_nat i0 - 1) |};
           Body := Some {[key := value]} |} (world s)) as [e He].
      destruct (roundTrip _ (world s)) as [w a]. simpl in He. subst a.
      cbn [dret].
      destruct (IH (S i0) (Some e)
        {| world := w;
           sent := sent s ++
             [{| Method := MethodPost;
                 Target := {| host := IP (info cn); port := Port (info cn);
                              q_id := ID (info cn); q_key := None;
                              q_copy := Some (Z.of_nat i0 - 1) |};
                 Body := Some {[key := value]} |}] |})
        as (e' & s' & Hrun & Hsome & Hsent).
      exists e', s'. split_and!; [done| |].
      * intros _. destruct nodes; [|by apply Hsome].
        simpl in Hrun. injection Hrun as <- _. by eexists.
      * rewrite Hsent. cbn [sent].
        rewrite filter_cons, decide_True by done. by rewrite <- app_assoc.
    + cbn [dret].
      destruct (IH (S i0) (Some (Err "parse error")) s)
        as (e' & s' & Hrun & Hsome & Hsent).
      exists e', s'. split_and!; [done| |].
      * intros _. destruct nodes; [|by apply Hsome].
        simpl in Hrun. injection Hrun as <- _. by eexists.
      * rewrite Hsent.
        by rewrite filter_cons, decide_False
          by (simpl; unfold createURLForSet in Hparse; rewrite Hparse; done).
Qed.

(** The loop of [get] over replicas that are all there: it does not
    panic, and the requests it hands to the client are the GETs for the
    key of a prefix of the replicas, those whose URL parses. *)
Lemma getLoop_sent (key : string) (nodes : list (option cacheNode))
    (s : net World) :
  Forall is_Some nodes →
  ∃ k res s',
    getLoop parses roundTrip key nodes s = Returns (res, s') ∧
    (k ≤ length nodes)%nat ∧
    sent s' = sent s ++ filter (λ r, parses (Target r) = true)
                          (getRequests key (take k nodes)).
Proof.
  intros Hall. revert s.
  induction Hall as [|p nodes [cn ->] Hall IH]; intros s.
  - exists 0%nat. eexists _, s. split_and!; [done|simpl; lia|].
    by rewrite app_nil_r.
  - cbn [getLoop]. unfold dbind at 1, deref, lift.
    unfold dbind at 1, getFromNode, dbind at 1, Get, NewRequest.
    destruct (parses (createURL cn key)) eqn:Hparse.
    + unfold Do.
      change {| Method := MethodGet; Target := createURL cn key; Body := None |}
        with (getFor key cn).
      destruct (roundTrip (getFor key cn) (world s)) as [w a].
      assert (∃ k res s',
        getLoop parses roundTrip key nodes
          {| world := w; sent := sent s ++ [getFor key cn] |}
        = Returns (res, s') ∧ (k ≤ length nodes)%nat ∧
        sent s' = (sent s ++ [getFor key cn]) ++
                  filter (λ r, parses (Target r) = true)
                    (getRequests key (take k nodes))) as Hrest.
      { apply (IH {| world := w; sent := sent s ++ [getFor key cn] |}). }
      destruct Hrest as (k & res & s' & Hrun & Hk & Hsent).
      assert (∀ rest,
                filter (λ r, parses (Target r) = true)
                  (getRequests key (Some cn :: rest))
                = getFor key cn :: filter (λ r, parses (Target r) = true)
                                     (getRequests key rest)) as Hcons.
      { intros rest. unfold getRequests.
        cbn [omap list_omap fmap option_fmap option_map].
        by rewrite filter_cons, decide_True by done. }
      destruct a as [e|resp]; cbn [dret].
      * exists (S k), res, s'. split_and!; [done|simpl; lia|].
        cbn [take]. rewrite Hcons, Hsent. by rewrite <- app_assoc.
      * case_decide as Hstatus; cbn [dret].
        { exists (S k), res, s'. split_and!; [done|simpl; lia|].
          cbn [take]. rewrite Hcons, Hsent. by rewrite <- app_assoc. }
        destruct (Payload resp) as [v|]; cbn [dret].
        { exists 1%nat. eexists _, _. split_and!; [done|simpl; lia|].
          cbn [take sent]. rewrite take_0, Hcons. done. }
        exists (S k), res, s'. split_and!; [done|simpl; lia|].
        cbn [take]. rewrite Hcons, Hsent. by rewrite <- app_assoc.
    + cbn [dret]. destruct (IH s) as (k & res & s' & Hrun & Hk & Hsent).
      exists (S k), res, s'. split_and!; [done|simpl; lia|].
      cbn [take]. rewrite Hsent. f_equal.
      unfold getRequests. cbn [omap list_omap fmap option_fmap option_map].
      by rewrite filter_cons, decide_False
        by (simpl; unfold createURL in Hparse; rewrite Hparse; done).
Qed.

End DispatcherTraces.

(** X19. When every request fails in transport, [set] on a non-empty ring
    tries every replica of the key, in order, and returns an error. *)
Theorem set_tries_every_replica {World : Type} (parses : URL → bool)
    (roundTrip : request → World → World * (error + response))
    (red : Z) (ops : list cacheOp) (key : string) (value : list Byte.byte)
    (s : net World) :
  (∀ r w, ∃ e, (roundTrip r w).2 = inl e) →
  sortedHashes (hring (cacheRun red ops)) ≠ [] →
  ∃ nodes e s',
    ring.getNodes key red (hring (cacheRun red ops)) = Returns nodes ∧
    set parses roundTrip key value (cacheRun red ops) s
    = Returns (Some e, s') ∧
    sent s' = sent s ++ filter (λ r, parses (Target r) = true)
                          (rankedPosts key value 0 nodes).
Proof.
  intros Hfail Hne.
  destruct (getNodes_all_nodes (hring (cacheRun red ops)) key red
              (cache_ringInv_run red ops) Hne) as (nodes & Hnodes & Hcons & Hall).
  destruct (setLoop_all_fail parses roundTrip key value nodes 0 None s
              Hfail Hall) as (e & s' & Hrun & Hsome & Hsent).
  destruct (Hsome Hcons) as [e0 ->].
  exists nodes, e0, s'. split_and!; [done| |done].
  unfold set, dbind, lift. by rewrite cacheRun_redundancy, Hnodes.
Qed.

Lemma set_tries_every_replica_witness :
  ∃ nodes e s',
    ring.getNodes "key1" 2 (hring (cacheRun 2 threePeers)) = Returns nodes ∧
    set (λ _, true) unreachable "key1" [] (cacheRun 2 threePeers)
        {| world := (); sent := [] |}
    = Returns (Some e, s') ∧
    sent s' = [] ++ filter (λ r, (λ _ : URL, true) (Target r) = true)
                      (rankedPosts "key1" [] 0 nodes).
Proof.
  apply (set_tries_every_replica (λ _, true) unreachable 2 threePeers "key1" []
           {| world := (); sent := [] |}).
  - intros r w. by exists (Err "no route to host").
  - vm_compute. discriminate.
Defined.

(** X20. Whatever the network does, [get] on a non-empty ring returns,
    and what it hands to the client are GET requests for the key,
    addressed to a prefix of the key's replicas in the order of
    [getNodes]; it sends no POST and no DELETE. *)
Theorem get_asks_replicas_in_order {World : Type} (parses : URL → bool)
    (roundTrip : request → World → World * (error + response))
    (red : Z) (ops : list cacheOp) (key : string) (s : net World) :
  sortedHashes (hring (cacheRun red ops)) ≠ [] →
  ∃ nodes k res s',
    ring.getNodes key red (hring (cacheRun red ops)) = Returns nodes ∧
    get parses roundTrip key (cacheRun red ops) s = Returns (res, s') ∧
    (k ≤ length nodes)%nat ∧
    sent s' = sent s ++ filter (λ r, parses (Target r) = true)
                          (getRequests key (take k nodes)).
Proof.
  intros Hne.
  destruct (getNodes_all_nodes (hring (cacheRun red ops)) key red
              (cache_ringInv_run red ops) Hne) as (nodes & Hnodes & _ & Hall).
  destruct (getLoop_sent parses roundTrip key nodes s Hall)
    as (k & res & s' & Hrun & Hk & Hsent).
  exists nodes, k, res, s'. split_and!; [done| |done..].
  unfold get, dbind, lift. by rewrite cacheRun_redundancy, Hnodes.
Qed.

Lemma get_asks_replicas_in_order_witness :
  ∃ nodes k res s',
    ring.getNodes "key1" 2 (hring (cacheRun 2 threePeers)) = Returns nodes ∧
    get (λ _, true) answers503 "key1" (cacheRun 2 threePeers)
        {| world := (); sent := [] |} = Returns (res, s') ∧
    (k ≤ length nodes)%nat ∧
    sent s' = [] ++ filter (λ r, (λ _ : URL, true) (Target r) = true)
                      (getRequests "key1" (take k nodes)).
Proof.
  apply (get_asks_replicas_in_order (λ _, true) answers503 2 threePeers "key1"
           {| world := (); sent := [] |}).
  vm_compute. discriminate.
Defined.

(** ** A node on its own *)

(** X21. [Start] adds the node to a new cache before it calls [start],
    so [start] finds the node's own descriptor and goes on to discovery;
    on a cache the node was not added to, [start] takes its error
    return. *)
Theorem Start_finds_own_node (node : nodeInfo) (red : Z) (now : Z) :
  start node (Start node red now) = Some node ∧
  nodeHB (Start node red now) = {[ID node := now]} ∧
  start node (cache.newDistributedCache red) = None.
Proof.
  unfold start, Start, ring.getNodeByID, cache.addNode, ring.addNode. simpl.
  rewrite !lookup_empty. simpl. rewrite lookup_insert_eq. split_and!; done.
Qed.




(** ** Heartbeats and the monitor together *)

(** X23. A peer whose heartbeat was taken in no longer ago than the
    monitor interval survives the sweep: its registry entry is there
    afterwards, with the time of that heartbeat. *)
Theorem fresh_heartbeat_survives_sweep (c : distributedCache)
    (node : nodeInfo) (seen now : Z) (myNodeID : string)
    (order : list string) :
  discovery.rangeOrder (nodeHB (cache.addNode node seen c)) order →
  now - seen ≤ discovery.monitorInterval →
  nodeHB (discovery.sweep myNodeID now order (cache.addNode node seen c))
    !! ID node = Some seen.
Proof.
  intros Horder Hfresh.
  destruct (sweep_lookup (cache.addNode node seen c) myNodeID now order Horder)
    as [-> _].
  assert (nodeHB (cache.addNode node seen c) !! ID node = Some seen) as Hin
    by apply lookup_insert_eq.
  destruct (expired _ _ _ _) eqn:Hexp; [|done].
  apply expired_true in Hexp as (_ & t & Ht & Hstale).
  rewrite Hin in Ht. injection Ht as <-. unfold stale in Hstale. lia.
Qed.

Lemma fresh_heartbeat_survives_sweep_witness :
  nodeHB (discovery.sweep "node1" 20000000000 ["node3"; "node1"; "node2"]
            (cache.addNode node2 12000000000 (cacheRun 1 threePeers)))
    !! ID node2 = Some 12000000000.
Proof.
  apply (fresh_heartbeat_survives_sweep (cacheRun 1 threePeers) node2
           12000000000 20000000000 "node1" ["node3"; "node1"; "node2"]).
  - unfold discovery.rangeOrder. vm_compute. reflexivity.
  - vm_compute. discriminate.
Defined.
